(** * A shallow embedding of the [iknow_query] / [iknow_macro] helpers of
    the IRIS NLP notebook (src/python/IRIS-NLP.ipynb).

    The notebook drives the iKnow query APIs of an IRIS server through the
    Native API for Python ([irispy]).  [iknow_query] reads the result schema
    and the formal parameter list of a query method from the class
    dictionary, binds the caller's positional and keyword arguments to a
    fully positional vector (resolving [$$$] macro defaults with
    [iknow_macro]), calls the method with an output global, drains that
    global into a list of Python dicts and finally kills the global.

    The server is external: its class dictionary, the method bodies, the
    macro include file and the [IRISList] accessor are parameters of the
    model (the record [env]); the globals it writes are the explicit state. *)

From Stdlib Require Import String Ascii List ZArith Lia Bool Sorted.
Import ListNotations.
Open Scope string_scope.
Open Scope list_scope.

(** ** Python strings *)

(** [s.split(c)] for a one-character separator: every occurrence splits,
    so the result always has at least one element. *)
Fixpoint py_split (c : ascii) (s : string) : list string :=
  match s with
  | EmptyString => [EmptyString]
  | String a s' =>
      if Ascii.eqb a c then EmptyString :: py_split c s'
      else match py_split c s' with
           | x :: xs => String a x :: xs
           | [] => [String a EmptyString]
           end
  end.

(** [str.upper] of the Python interpreter maps the whole Unicode range
    (['ı'] and ['i'] both give ['I'], ['ß'] gives ['SS'], ...): the code
    below takes it as a parameter [py_upper], and an [env] supplies it.
    On ASCII text it is the following function, used by the examples. *)

(** [ch.upper()] on the ASCII range. *)
Definition upper_char (a : ascii) : ascii :=
  let n := nat_of_ascii a in
  if (97 <=? n)%nat && (n <=? 122)%nat then ascii_of_nat (n - 32)%nat else a.

(** [s.upper()] for an ASCII string [s] *)
Fixpoint ascii_upper (s : string) : string :=
  match s with
  | EmptyString => EmptyString
  | String a s' => String (upper_char a) (ascii_upper s')
  end.

(** [s[0:3]] *)
Definition py_prefix3 (s : string) : string := substring 0 3 s.

(** [s[3:]] and [s[1:]] *)
Definition py_drop (n : nat) (s : string) : string :=
  substring n (String.length s - n) s.

(** ** Python values and exceptions *)

Inductive pyval :=
| PStr (s : string)
| PInt (z : Z)
| PNone.

Definition pyval_eqb (a b : pyval) : bool :=
  match a, b with
  | PStr x, PStr y => String.eqb x y
  | PInt x, PInt y => Z.eqb x y
  | PNone, PNone => true
  | _, _ => false
  end.

Inductive exc :=
| IndexError                (** [l[i]] out of range *)
| AttributeError            (** [proxy.get] on a null [%OpenId] result *)
| ServerError (msg : string). (** an error raised by the IRIS server *)

(** Fallible pure code: [inl] is a raised exception. *)
Definition res (A : Type) := (exc + A)%type.

(** [l[i]] *)
Definition py_index {A} (l : list A) (i : nat) : res A :=
  match nth_error l i with
  | Some x => inr x
  | None => inl IndexError
  end.

(** ** Python dicts, as insertion-ordered association lists *)

Definition dict (V : Type) := list (string * V).

Fixpoint dict_get {V} (d : dict V) (k : string) : option V :=
  match d with
  | [] => None
  | (k', v) :: d' => if String.eqb k k' then Some v else dict_get d' k
  end.

(** [d[k] = v]: an existing key keeps its position, a new key goes last. *)
Fixpoint dict_set {V} (d : dict V) (k : string) (v : V) : dict V :=
  match d with
  | [] => [(k, v)]
  | (k', v') :: d' =>
      if String.eqb k k' then (k', v) :: d' else (k', v') :: dict_set d' k v
  end.

Definition dict_keys {V} (d : dict V) : list string := map fst d.

(** ** The IRIS side: globals, class dictionary, method calls *)

(** A [$list] stored at a node of the output global, as the [IRISList] it
    decodes to. *)
Definition payload := list pyval.

(** The globals of the namespace: for each global name the subscripted
    nodes [(subscript, value)]. *)
Definition globals := list (pyval * list (Z * payload)).

(** A class method call [(class, method, argument vector)]. *)
Definition call := (string * string * list pyval)%type.

(** The explicit state of a dispatch: the server's globals and the log of
    the remote class-method calls issued so far. *)
Record state := mkState {
  st_globals : globals;
  st_calls : list call
}.

(** What the notebook reads from or runs on the server. *)
Record env := mkEnv {
  (** [classMethodValue('%Dictionary.ParameterDefinition','%OpenId',id).get('Default')];
      [None] when [%OpenId] finds no record. *)
  param_default : string -> option string;
  (** [classMethodValue('%Dictionary.CompiledMethod','%OpenId',id).get('FormalSpec')] *)
  formal_spec : string -> option string;
  (** the lines of [^rINC("%IKPublic",0)], in subscript order *)
  ikpublic : list string;
  (** the body of a class method run by [classMethodVoid]: it acts on the
      globals and may raise, leaving whatever it already wrote. *)
  remote : string -> string -> list pyval -> globals -> res unit * globals;
  (** [iris.IRISList(bytes).get(i)] *)
  list_get : payload -> nat -> res pyval;
  (** [str.upper] of the Python interpreter running the notebook *)
  str_upper : string -> string
}.

(** The state-and-exception monad of a dispatch. *)
Definition M (A : Type) := state -> res A * state.

Definition mret {A} (x : A) : M A := fun st => (inr x, st).

Definition mbind {A B} (c : M A) (k : A -> M B) : M B :=
  fun st => match c st with
            | (inl e, st') => (inl e, st')
            | (inr x, st') => k x st'
            end.

(** Pure fallible code inside a dispatch. *)
Definition lift {A} (r : res A) : M A := fun st => (r, st).

Notation "'let!' x ':=' c 'in' k" := (mbind c (fun x => k))
  (at level 200, x name, c at level 100, k at level 200).

(** [mapM] for pure fallible code: [list(map(f, l))]. *)
Fixpoint map_res {A B} (f : A -> res B) (l : list A) : res (list B) :=
  match l with
  | [] => inr []
  | x :: l' =>
      match f x with
      | inl e => inl e
      | inr y => match map_res f l' with
                 | inl e => inl e
                 | inr ys => inr (y :: ys)
                 end
      end
  end.

Fixpoint glo_get (g : globals) (name : pyval) : list (Z * payload) :=
  match g with
  | [] => []
  | (n, nodes) :: g' => if pyval_eqb n name then nodes else glo_get g' name
  end.

(** [irispy.kill(name)] *)
Definition glo_kill (name : pyval) (g : globals) : globals :=
  filter (fun p => negb (pyval_eqb (fst p) name)) g.

(** [irispy.nextSubscript(0, name, k)]: the least subscript above [k]. *)
Definition next_sub (nodes : list (Z * payload)) (k : Z) : option Z :=
  fold_left
    (fun acc p =>
       if (k <? fst p)%Z then
         match acc with
         | None => Some (fst p)
         | Some m => Some (Z.min m (fst p))
         end
       else acc)
    nodes None.

(** [irispy.getBytes(name, k)] *)
Fixpoint get_node (nodes : list (Z * payload)) (k : Z) : res payload :=
  match nodes with
  | [] => inl (ServerError "<UNDEFINED>")
  | (k', p) :: nodes' => if (k =? k')%Z then inr p else get_node nodes' k
  end.

(** [irispy.classMethodVoid(api, method, *argv)] *)
Definition classMethodVoid (E : env) (api method : string) (argv : list pyval) : M unit :=
  fun st =>
    let '(r, g') := remote E api method argv (st_globals st) in
    (r, mkState g' (st_calls st ++ [(api, method, argv)])).

(** ** [iknow_macro] *)

Fixpoint macro_scan (macro : string) (lines : list string) : res pyval :=
  match lines with
  | [] => inr PNone
  | line :: lines' =>
      let raw_line := py_split " " line in
      if (1 <? length raw_line)%nat && String.eqb (nth 1 raw_line "") macro then
        match py_index raw_line 2 with
        | inl e => inl e
        | inr v => inr (PStr v)
        end
      else macro_scan macro lines'
  end.

Definition dollar3 : string := "$$$".

(** [if macro[0:3] == '$$$': macro = macro[3:]] *)
Definition macro_name (macro : string) : string :=
  if String.eqb (py_prefix3 macro) dollar3 then py_drop 3 macro else macro.

Definition iknow_macro (tbl : list string) (macro : string) : res pyval :=
  macro_scan (macro_name macro) tbl.

(** ** [iknow_query] *)

(** The empty-string sentinel ['""'] of a formal spec default. *)
Definition empty_sentinel : string :=
  String (ascii_of_nat 34) (String (ascii_of_nat 34) EmptyString).

(** [kwargs = { 'outGlo': '^result', **kwargs }] *)
Definition merge_step (d : dict pyval) (kv : string * pyval) : dict pyval :=
  dict_set d (fst kv) (snd kv).

Definition merge_kwargs (kwargs : list (string * pyval)) : dict pyval :=
  fold_left merge_step kwargs [("outGlo", PStr "^result")].

Definition out_glo (kw : dict pyval) : pyval :=
  match dict_get kw "outGlo" with Some v => v | None => PNone end.

(** The [kwupper] loop: every keyword but [outGlo], upper-cased by
    [py_upper] ([str.upper]). *)
Definition kw_upper_step (py_upper : string -> string) (d : dict pyval)
    (kv : string * pyval) : dict pyval :=
  if String.eqb (fst kv) "outGlo" then d else dict_set d (py_upper (fst kv)) (snd kv).

Definition kw_upper (py_upper : string -> string) (kw : dict pyval) : dict pyval :=
  fold_left (kw_upper_step py_upper) kw [].

(** [argument.split('=')] after stripping a leading [&] or [*];
    [argument[0]] raises on an empty token. *)
Definition param_parts (argument : string) : res (list string) :=
  match argument with
  | EmptyString => inl IndexError
  | String c _ =>
      let argument :=
        if Ascii.eqb c "&" || Ascii.eqb c "*" then py_drop 1 argument else argument in
      inr (py_split "=" argument)
  end.

(** [argument[0].split(':')[0].upper()] *)
Definition param_name (py_upper : string -> string) (parts : list string) : string :=
  py_upper (hd "" (py_split ":" (hd "" parts))).

(** The body of the binding loop for the [i]-th formal ([i >= 2]). *)
Definition bind_param (py_upper : string -> string) (tbl : list string)
    (kwupper : dict pyval) (args : list pyval) (i : nat) (argument : string) : res pyval :=
  match param_parts argument with
  | inl e => inl e
  | inr parts =>
      match dict_get kwupper (param_name py_upper parts) with
      | Some v => inr v
      | None =>
          if (i - 2 <? length args)%nat then py_index args (i - 2)
          else if (1 <? length parts)%nat then
            let default := nth 1 parts "" in
            if String.eqb default empty_sentinel then inr (PStr "")
            else if String.eqb (py_prefix3 default) dollar3 then iknow_macro tbl default
            else inr (PStr (nth 1 parts ""))
          else inr PNone
      end
  end.

(** [for i, argument in enumerate(raw): if (i < 2): continue ...] *)
Fixpoint bind_loop (py_upper : string -> string) (tbl : list string) (kwupper : dict pyval)
    (args : list pyval)
    (i : nat) (raw : list string) : res (list pyval) :=
  match raw with
  | [] => inr []
  | argument :: raw' =>
      if (i <? 2)%nat then bind_loop py_upper tbl kwupper args (S i) raw'
      else match bind_param py_upper tbl kwupper args i argument with
           | inl e => inl e
           | inr v => match bind_loop py_upper tbl kwupper args (S i) raw' with
                      | inl e => inl e
                      | inr vs => inr (v :: vs)
                      end
           end
  end.

(** A result row: [row = {}; for i, col in enumerate(return_cols): row[col] = raw_row.get(i+1)] *)
Fixpoint build_row (get : payload -> nat -> res pyval) (raw_row : payload)
    (cols : list string) (i : nat) (row : dict pyval) : res (dict pyval) :=
  match cols with
  | [] => inr row
  | col :: cols' =>
      match get raw_row (i + 1)%nat with
      | inl e => inl e
      | inr v => build_row get raw_row cols' (S i) (dict_set row col v)
      end
  end.

(** The [while True] loop over the output global.  Each round moves to a
    strictly larger subscript, so [S (length nodes)] rounds always reach the
    end; the fuel case is never taken. *)
Fixpoint drain_loop (get : payload -> nat -> res pyval) (cols : list string)
    (nodes : list (Z * payload)) (fuel : nat) (subscript : Z) : res (list (dict pyval)) :=
  match fuel with
  | O => inr []
  | S fuel' =>
      match next_sub nodes subscript with
      | None => inr []
      | Some sub =>
          match get_node nodes sub with
          | inl e => inl e
          | inr raw_row =>
              match build_row get raw_row cols 0 [] with
              | inl e => inl e
              | inr row =>
                  match drain_loop get cols nodes fuel' sub with
                  | inl e => inl e
                  | inr rows => inr (row :: rows)
                  end
              end
          end
      end
  end.

Definition drain (E : env) (cols : list string) (outGlo : pyval) : M (list (dict pyval)) :=
  fun st =>
    let nodes := glo_get (st_globals st) outGlo in
    (drain_loop (list_get E) cols nodes (S (length nodes)) 0%Z, st).

Definition kill (outGlo : pyval) : M unit :=
  fun st => (inr tt, mkState (glo_kill outGlo (st_globals st)) (st_calls st)).

(** [raw = proxy.get('Default').split(',')] of the [...RT] parameter. *)
Definition result_schema (E : env) (api method : string) : res (list string) :=
  match param_default E (api ++ "||" ++ method ++ "RT") with
  | Some d => inr (py_split "," d)
  | None => inl AttributeError
  end.

(** [raw = proxy.get('FormalSpec').split(',')] of the compiled method. *)
Definition method_spec (E : env) (api method : string) : res (list string) :=
  match formal_spec E (api ++ "||" ++ method) with
  | Some f => inr (py_split "," f)
  | None => inl AttributeError
  end.

Definition return_cols_of (raw : list string) : list string :=
  map (fun x => hd "" (py_split ":" x)) raw.

Definition iknow_query (E : env) (api method : string) (domain_id : pyval)
    (args : list pyval) (kwargs : list (string * pyval)) : M (list (dict pyval)) :=
  let kw := merge_kwargs kwargs in
  let outGlo := out_glo kw in
  let! raw := lift (result_schema E api method) in
  let return_cols := return_cols_of raw in
  let! return_types := lift (map_res (fun x => py_index (py_split ":" x) 1) raw) in
  let kwupper := kw_upper (str_upper E) kw in
  let! raw2 := lift (method_spec E api method) in
  let! full_args := lift (bind_loop (str_upper E) (ikpublic E) kwupper args 0 raw2) in
  let! _u := classMethodVoid E api method (outGlo :: domain_id :: full_args) in
  let! result := drain E return_cols outGlo in
  let! _k := kill outGlo in
  mret result.

(** ** The first notebook's [iknow_query]

    The file holds two notebooks.  The first one's [iknow_query] takes the
    output global as a keyword-only parameter and passes the positional
    arguments to the method as they are, without reading its formal spec. *)
Module FirstNotebook.

Definition iknow_query (E : env) (api method : string) (domain_id : pyval)
    (args : list pyval) (outGlo : pyval) : M (list (dict pyval)) :=
  let! raw := lift (result_schema E api method) in
  let return_cols := return_cols_of raw in
  let! return_types := lift (map_res (fun x => py_index (py_split ":" x) 1) raw) in
  let! _u := classMethodVoid E api method (outGlo :: domain_id :: args) in
  let! result := drain E return_cols outGlo in
  let! _k := kill outGlo in
  mret result.

End FirstNotebook.

(** ** A concrete server, after the notebook's [GetTop] call *)
Module Demo.

Definition entity_api : string := "%iKnow.Queries.EntityAPI".

Definition get_top_rt : string :=
  "entUniId:%Integer,entity:%String,frequency:%Integer,spread:%Integer".

Definition get_top_spec : string :=
  "&result,domainid:%Integer,page:%Integer=1,pagesize:%Integer=10,filter:%iKnow.Filters.Filter="
  ++ empty_sentinel ++ ",filtermode:%Integer=$$$FILTERONLY".

Definition ikpublic_lines : list string :=
  ["#define FILTERONLY 3"; "#define SORTBYFREQUENCY 0"].

(** [IRISList.get(i)]: 1-based, [None] past the end. *)
Definition irislist_get (p : payload) (i : nat) : res pyval :=
  match i with
  | O => inl IndexError
  | S j => inr (nth j p PNone)
  end.

(** [IRISList.get(i)] raising past the end. *)
Definition irislist_get_strict (p : payload) (i : nat) : res pyval :=
  match i with
  | O => inl IndexError
  | S j => py_index p j
  end.

(** The query writes two rows into the output global (its first argument). *)
Definition get_top_body (api method : string) (argv : list pyval) (g : globals)
    : res unit * globals :=
  (inr tt, (nth 0 argv PNone,
            [(1%Z, [PInt 1; PStr "hello"; PInt 2; PInt 2]);
             (2%Z, [PInt 7; PStr "text"; PInt 2; PInt 2])]) :: g).

(** A server exposing one query [api||GetTop] with result schema [rt] and
    formal spec [spec]. *)
Definition mk_server (rt spec : string) (tbl : list string)
    (body : string -> string -> list pyval -> globals -> res unit * globals)
    (get : payload -> nat -> res pyval) : env := {|
  param_default := fun id =>
    if String.eqb id (entity_api ++ "||GetTopRT") then Some rt else None;
  formal_spec := fun id =>
    if String.eqb id (entity_api ++ "||GetTop") then Some spec else None;
  ikpublic := tbl;
  remote := body;
  list_get := get;
  str_upper := ascii_upper
|}.

Definition server : env :=
  mk_server get_top_rt get_top_spec ikpublic_lines get_top_body irislist_get.

Definition st0 : state := mkState [] [].

(** A result schema naming one column twice. *)
Definition server_dup_cols : env :=
  mk_server "entity:%String,entity:%Integer" get_top_spec ikpublic_lines
    get_top_body irislist_get.

(** A method with two parameters after the reserved ones. *)
Definition two_param_spec : string :=
  "&result,domainid:%Integer,page:%Integer=1,pagesize:%Integer=10".

Definition server_two_params : env :=
  mk_server get_top_rt two_param_spec ikpublic_lines get_top_body irislist_get.

(** An include file without the [FILTERONLY] macro. *)
Definition server_no_macro : env :=
  mk_server get_top_rt get_top_spec ["#define SORTBYFREQUENCY 0"]
    get_top_body irislist_get.

(** A query that writes a first row and then fails. *)
Definition failing_body (api method : string) (argv : list pyval) (g : globals)
    : res unit * globals :=
  (inl (ServerError "<COMMAND>"),
   (nth 0 argv PNone, [(1%Z, [PInt 1; PStr "hello"; PInt 2; PInt 2])]) :: g).

Definition server_failing : env :=
  mk_server get_top_rt get_top_spec ikpublic_lines failing_body irislist_get.

(** A query whose row carries one field for a two-column schema. *)
Definition short_body (api method : string) (argv : list pyval) (g : globals)
    : res unit * globals :=
  (inr tt, (nth 0 argv PNone, [(1%Z, [PStr "fish"])]) :: g).

Definition short_rt : string := "entity:%String,frequency:%Integer".

Definition server_short : env :=
  mk_server short_rt get_top_spec ikpublic_lines short_body irislist_get.

Definition server_short_strict : env :=
  mk_server short_rt get_top_spec ikpublic_lines short_body irislist_get_strict.

(** A result schema entry without a type. *)
Definition server_untyped : env :=
  mk_server "entity" get_top_spec ikpublic_lines get_top_body irislist_get.

(** The rows [GetTop] returns on [server]. *)
Definition get_top_rows : list (dict pyval) :=
  [[("entUniId", PInt 1); ("entity", PStr "hello"); ("frequency", PInt 2); ("spread", PInt 2)];
   [("entUniId", PInt 7); ("entity", PStr "text"); ("frequency", PInt 2); ("spread", PInt 2)]].

(** A formal spec declaring a parameter spelled like the reserved keyword. *)
Definition outglo_param_spec : string := "&result,domainid:%Integer,outglo:%String=none".

End Demo.

(** ** Auxiliary notions for the proofs *)

(** The two markers a formal-spec token may start with. *)
Definition is_marker (c : ascii) : Prop := c = "&"%char \/ c = "*"%char.

(** The step of the [fold_left] in [next_sub], and what its accumulator
    holds after a prefix [seen] of the subscripts. *)
Definition next_sub_step (k : Z) (acc : option Z) (p : Z * payload) : option Z :=
  if (k <? fst p)%Z then
    match acc with
    | None => Some (fst p)
    | Some m => Some (Z.min m (fst p))
    end
  else acc.

Definition least_above (k : Z) (acc : option Z) (seen : list Z) : Prop :=
  match acc with
  | None => forall z, In z seen -> (z <= k)%Z
  | Some m => In m seen /\ (k < m)%Z /\ forall z, In z seen -> (k < z)%Z -> (m <= z)%Z
  end.

(** ** Dicts *)

(** The key order of a dict filled by [d[k] = v] from a list of keys:
    first occurrences, in order. *)
Definition add_key (acc : list string) (k : string) : list string :=
  if existsb (String.eqb k) acc then acc else acc ++ [k].

Definition dedup_first (l : list string) : list string := fold_left add_key l [].

Lemma dict_keys_set {V} (d : dict V) k v :
  dict_keys (dict_set d k v) = add_key (dict_keys d) k.
Proof.
  unfold add_key; induction d as [|[k' v'] d IH]; simpl; [reflexivity|].
  destruct (String.eqb k k') eqn:E; simpl; [reflexivity|].
  rewrite IH. destruct (existsb (String.eqb k) (dict_keys d)); reflexivity.
Qed.

Lemma dict_get_set {V} (d : dict V) k v x :
  dict_get (dict_set d k v) x = if String.eqb x k then Some v else dict_get d x.
Proof.
  induction d as [|[k' v'] d IH]; simpl.
  - reflexivity.
  - destruct (String.eqb k k') eqn:E1; simpl.
    + apply String.eqb_eq in E1; subst k'.
      destruct (String.eqb x k); reflexivity.
    + rewrite IH. destruct (String.eqb x k') eqn:E2; [|reflexivity].
      apply String.eqb_eq in E2; subst x.
      destruct (String.eqb k' k) eqn:E3; [|reflexivity].
      apply String.eqb_eq in E3; subst. rewrite String.eqb_refl in E1. discriminate.
Qed.

Lemma dict_get_none {V} (d : dict V) x :
  ~ In x (dict_keys d) -> dict_get d x = None.
Proof.
  induction d as [|[k v] d IH]; simpl; [reflexivity|].
  intros Hn. destruct (String.eqb x k) eqn:E.
  - apply String.eqb_eq in E; subst. exfalso; apply Hn; left; reflexivity.
  - apply IH. intros H; apply Hn; right; exact H.
Qed.

Lemma dict_set_new {V} (d : dict V) k v :
  ~ In k (dict_keys d) -> dict_set d k v = d ++ [(k, v)].
Proof.
  induction d as [|[k' v'] d IH]; simpl; [reflexivity|].
  intros Hn. destruct (String.eqb k k') eqn:E.
  - apply String.eqb_eq in E; subst. exfalso; apply Hn; left; reflexivity.
  - rewrite IH; [reflexivity|]. intros H; apply Hn; right; exact H.
Qed.

Lemma in_add_key acc k x : In x (add_key acc k) -> In x acc \/ x = k.
Proof.
  unfold add_key. destruct (existsb _ _); [auto|].
  intros H. apply in_app_or in H as [H|[H|[]]]; auto.
Qed.

Lemma add_keys_nodup l acc :
  NoDup (acc ++ l) -> fold_left add_key l acc = acc ++ l.
Proof.
  revert acc; induction l as [|x l IH]; intros acc Hnd; simpl.
  - rewrite app_nil_r; reflexivity.
  - assert (Hx : existsb (String.eqb x) acc = false).
    { apply Bool.not_true_iff_false. intros Hin.
      apply existsb_exists in Hin as [y [Hy Hxy]].
      apply String.eqb_eq in Hxy; subst y.
      apply NoDup_remove_2 in Hnd. apply Hnd, in_or_app; left; exact Hy. }
    unfold add_key at 2; rewrite Hx.
    rewrite IH; [rewrite <- app_assoc; reflexivity|].
    rewrite <- app_assoc; exact Hnd.
Qed.

Lemma dedup_first_nodup l : NoDup l -> dedup_first l = l.
Proof. intros H. unfold dedup_first. apply add_keys_nodup. exact H. Qed.

(** ** Rows and the output global *)

Lemma build_row_keys get raw_row cols : forall i row r,
  build_row get raw_row cols i row = inr r ->
  dict_keys r = fold_left add_key cols (dict_keys row).
Proof.
  induction cols as [|c cols IH]; intros i row r H; simpl in *.
  - injection H; intros; subst; reflexivity.
  - destruct (get raw_row (i + 1)%nat) as [e|v]; [discriminate|].
    rewrite (IH _ _ _ H), dict_keys_set. reflexivity.
Qed.

Lemma build_row_error get raw_row cols : forall i row e,
  build_row get raw_row cols i row = inl e ->
  exists n, (n < length cols)%nat /\ get raw_row (i + n + 1)%nat = inl e.
Proof.
  induction cols as [|c cols IH]; intros i row e H; simpl in *; [discriminate|].
  destruct (get raw_row (i + 1)%nat) as [e'|v] eqn:G.
  - injection H; intros; subst. exists O; split; [lia|].
    rewrite Nat.add_0_r; exact G.
  - destruct (IH _ _ _ H) as [n [Hn Hg]]. exists (S n); split; [lia|].
    replace (i + S n + 1)%nat with (S i + n + 1)%nat by lia; exact Hg.
Qed.

Lemma build_row_get_other get raw_row col : forall cols j r0 r,
  build_row get raw_row cols j r0 = inr r -> ~ In col cols -> dict_get r col = dict_get r0 col.
Proof.
  induction cols as [|c cols IH]; intros j r0 r H Hn; simpl in H.
  - injection H; intros; subst; reflexivity.
  - destruct (get raw_row (j + 1)%nat) as [e|v]; [discriminate|].
    rewrite (IH _ _ _ H) by (intros Hi; apply Hn; right; exact Hi).
    rewrite dict_get_set.
    replace (String.eqb col c) with false; [reflexivity|].
    symmetry. apply String.eqb_neq. intros ->. apply Hn. left. reflexivity.
Qed.

Lemma build_row_values_from get raw_row : forall cols j r0 r i col,
  build_row get raw_row cols j r0 = inr r ->
  nth_error cols i = Some col -> ~ In col (skipn (S i) cols) ->
  exists v, get raw_row (j + i + 1)%nat = inr v /\ dict_get r col = Some v.
Proof.
  induction cols as [|c cols IH]; intros j r0 r i col H Hi Hn; [destruct i; discriminate|].
  simpl in H. destruct (get raw_row (j + 1)%nat) as [e|v] eqn:G; [discriminate|].
  destruct i as [|i]; simpl in Hi, Hn.
  - injection Hi; intros; subst c. exists v. rewrite Nat.add_0_r. split; [exact G|].
    rewrite (build_row_get_other _ _ _ _ _ _ _ H Hn), dict_get_set, String.eqb_refl.
    reflexivity.
  - destruct (IH _ _ _ _ _ H Hi Hn) as [w [Hw Hr]]. exists w. split; [|exact Hr].
    replace (j + S i + 1)%nat with (S j + i + 1)%nat by lia. exact Hw.
Qed.

Lemma build_row_gets_ok get raw_row : forall cols j r0 r,
  build_row get raw_row cols j r0 = inr r ->
  forall n, (n < length cols)%nat -> exists v, get raw_row (j + n + 1)%nat = inr v.
Proof.
  induction cols as [|c cols IH]; intros j r0 r H n Hn; simpl in *; [lia|].
  destruct (get raw_row (j + 1)%nat) as [e|v] eqn:G; [discriminate|].
  destruct n as [|n].
  - exists v. rewrite Nat.add_0_r. exact G.
  - destruct (IH _ _ _ H n ltac:(lia)) as [w Hw]. exists w.
    replace (j + S n + 1)%nat with (S j + n + 1)%nat by lia. exact Hw.
Qed.

Lemma build_row_error_first get raw_row cols : forall j r0 e,
  build_row get raw_row cols j r0 = inl e ->
  exists n, (n < length cols)%nat /\ get raw_row (j + n + 1)%nat = inl e /\
    forall m, (m < n)%nat -> exists v, get raw_row (j + m + 1)%nat = inr v.
Proof.
  induction cols as [|c cols IH]; intros j r0 e H; simpl in *; [discriminate|].
  destruct (get raw_row (j + 1)%nat) as [e'|v] eqn:G.
  - injection H; intros; subst. exists O. split; [lia|]. split.
    + rewrite Nat.add_0_r. exact G.
    + intros m Hm. lia.
  - destruct (IH _ _ _ H) as [n [Hn [Hg Hm]]]. exists (S n). split; [lia|]. split.
    + replace (j + S n + 1)%nat with (S j + n + 1)%nat by lia. exact Hg.
    + intros [|m] Hm'.
      * exists v. rewrite Nat.add_0_r. exact G.
      * destruct (Hm m ltac:(lia)) as [w Hw]. exists w.
        replace (j + S m + 1)%nat with (S j + m + 1)%nat by lia. exact Hw.
Qed.

Lemma drain_loop_rows get cols nodes : forall fuel sub rows,
  drain_loop get cols nodes fuel sub = inr rows ->
  Forall (fun row => dict_keys row = dedup_first cols) rows.
Proof.
  induction fuel as [|fuel IH]; intros sub rows H; simpl in H.
  - injection H; intros; subst; constructor.
  - destruct (next_sub nodes sub) as [k|]; [|injection H; intros; subst; constructor].
    destruct (get_node nodes k) as [e|raw_row]; [discriminate|].
    destruct (build_row get raw_row cols 0 []) as [e|row] eqn:B; [discriminate|].
    destruct (drain_loop get cols nodes fuel k) as [e|rows'] eqn:D; [discriminate|].
    injection H; intros; subst. constructor.
    + apply build_row_keys in B. exact B.
    + exact (IH _ _ D).
Qed.

Lemma glo_get_kill g n : glo_get (glo_kill n g) n = [].
Proof.
  induction g as [|[n' nodes] g IH]; simpl; [reflexivity|].
  destruct (pyval_eqb n' n) eqn:E; simpl; [exact IH|].
  rewrite E. exact IH.
Qed.

(** ** The stages of a dispatch *)

Lemma iknow_query_cases E api method d args kwargs st r st' :
  iknow_query E api method d args kwargs st = (r, st') ->
  let outGlo := out_glo (merge_kwargs kwargs) in
  (st' = st /\ exists e, r = inl e) \/
  exists raw types raw2 full o g',
    result_schema E api method = inr raw /\
    map_res (fun x => py_index (py_split ":" x) 1) raw = inr types /\
    method_spec E api method = inr raw2 /\
    bind_loop (str_upper E) (ikpublic E) (kw_upper (str_upper E) (merge_kwargs kwargs)) args 0 raw2 = inr full /\
    remote E api method (outGlo :: d :: full) (st_globals st) = (o, g') /\
    let calls := st_calls st ++ [(api, method, outGlo :: d :: full)] in
    match o with
    | inl e => r = inl e /\ st' = mkState g' calls
    | inr _ =>
        let nodes := glo_get g' outGlo in
        match drain_loop (list_get E) (return_cols_of raw) nodes (S (length nodes)) 0%Z with
        | inl e => r = inl e /\ st' = mkState g' calls
        | inr rows => r = inr rows /\ st' = mkState (glo_kill outGlo g') calls
        end
    end.
Proof.
  unfold iknow_query, mbind, lift, mret, classMethodVoid, drain, kill; cbv zeta.
  intros H.
  destruct (result_schema E api method) as [e|raw] eqn:Hs;
    [left; injection H; intros; subst; eauto|].
  destruct (map_res _ raw) as [e|types] eqn:Ht;
    [left; injection H; intros; subst; eauto|].
  destruct (method_spec E api method) as [e|raw2] eqn:Hm;
    [left; injection H; intros; subst; eauto|].
  destruct (bind_loop _ _ _ args 0 raw2) as [e|full] eqn:Hb;
    [left; injection H; intros; subst; eauto|].
  right. destruct (remote E api method _ (st_globals st)) as [o g'] eqn:Hr.
  exists raw, types, raw2, full, o, g'.
  repeat (split; [first [reflexivity | assumption]|]).
  idtac.
  cbn [st_globals st_calls] in H. destruct o as [e|[]].
  - injection H; intros; subst; split; reflexivity.
  - cbv zeta.
    destruct (drain_loop _ _ _ _ _) as [e|rows];
      injection H; intros; subst; split; reflexivity.
Qed.

(** ** The binding loop *)

Section Binding.

Context {py_upper : string -> string}.

Lemma bind_loop_from tbl kw args : forall raw j full,
  (2 <= j)%nat -> bind_loop py_upper tbl kw args j raw = inr full ->
  length full = length raw /\
  forall n a, nth_error raw n = Some a ->
    exists w, bind_param py_upper tbl kw args (j + n) a = inr w /\ nth_error full n = Some w.
Proof.
  induction raw as [|a raw IH]; intros j full Hj H; simpl in H.
  - injection H; intros; subst. split; [reflexivity|].
    intros n a Hn; destruct n; discriminate.
  - replace (j <? 2)%nat with false in H by (symmetry; apply Nat.ltb_ge; exact Hj).
    destruct (bind_param py_upper tbl kw args j a) as [e|v] eqn:Hp; [discriminate|].
    destruct (bind_loop py_upper tbl kw args (S j) raw) as [e|vs] eqn:Hl; [discriminate|].
    injection H; intros; subst.
    destruct (IH (S j) vs ltac:(lia) Hl) as [Hlen Hnth].
    split; [simpl; rewrite Hlen; reflexivity|].
    intros [|n] b Hn; simpl in Hn.
    + injection Hn; intros; subst. exists v. rewrite Nat.add_0_r. split; [exact Hp|reflexivity].
    + destruct (Hnth n b Hn) as [w [Hw Hf]]. exists w.
      replace (j + S n)%nat with (S j + n)%nat by lia. split; [exact Hw|exact Hf].
Qed.

Lemma bind_loop_skip tbl kw args raw :
  bind_loop py_upper tbl kw args 0 raw = bind_loop py_upper tbl kw args 2 (skipn 2 raw).
Proof. destruct raw as [|a [|b raw]]; reflexivity. Qed.

Lemma bind_loop_param tbl kw args raw full i a :
  bind_loop py_upper tbl kw args 0 raw = inr full -> (2 <= i)%nat -> nth_error raw i = Some a ->
  exists w, bind_param py_upper tbl kw args i a = inr w /\ nth_error full (i - 2) = Some w.
Proof.
  rewrite bind_loop_skip. intros H Hi Ha.
  destruct (bind_loop_from tbl kw args (skipn 2 raw) 2 full (le_n 2) H) as [_ Hn].
  destruct (Hn (i - 2)%nat a) as [w [Hw Hf]].
  - destruct raw as [|x [|y raw]]; [destruct i; discriminate|destruct i as [|[|i]]; try lia; discriminate|].
    simpl. destruct i as [|[|i]]; try lia. simpl in Ha. simpl. rewrite ?Nat.sub_0_r. exact Ha.
  - exists w. replace (2 + (i - 2))%nat with i in Hw by lia. split; [exact Hw|exact Hf].
Qed.


Lemma bind_loop_ext tbl kw kw' args args' : forall raw j,
  (forall n a, nth_error raw n = Some a -> (2 <= j + n)%nat ->
     bind_param py_upper tbl kw args (j + n) a = bind_param py_upper tbl kw' args' (j + n) a) ->
  bind_loop py_upper tbl kw args j raw = bind_loop py_upper tbl kw' args' j raw.
Proof.
  induction raw as [|a raw IH]; intros j Heq; simpl; [reflexivity|].
  assert (Hs : forall n b, nth_error raw n = Some b -> (2 <= S j + n)%nat ->
            bind_param py_upper tbl kw args (S j + n) b = bind_param py_upper tbl kw' args' (S j + n) b).
  { intros n b Hn Hle. replace (S j + n)%nat with (j + S n)%nat by lia.
    apply Heq; [exact Hn|lia]. }
  destruct (j <? 2)%nat eqn:Hj; [apply IH; exact Hs|].
  apply Nat.ltb_ge in Hj.
  specialize (Heq O a eq_refl ltac:(lia)). rewrite Nat.add_0_r in Heq.
  rewrite Heq, (IH (S j) Hs). reflexivity.
Qed.

(** ** Keyword arguments *)

Definition not_outglo (kv : string * pyval) : bool := negb (String.eqb (fst kv) "outGlo").

Lemma merge_fold_keys : forall l d x,
  In x (dict_keys (fold_left merge_step l d)) -> In x (dict_keys d) \/ In x (map fst l).
Proof.
  induction l as [|[k v] l IH]; intros d x H; simpl in *; [auto|].
  destruct (IH _ _ H) as [H1|H1]; [|auto].
  unfold merge_step in H1; simpl in H1. rewrite dict_keys_set in H1.
  destruct (in_add_key _ _ _ H1); auto.
Qed.

Lemma kw_upper_fold_keys : forall l d X,
  In X (dict_keys (fold_left (kw_upper_step py_upper) l d)) ->
  In X (dict_keys d) \/ exists kv, In kv l /\ fst kv <> "outGlo" /\ X = py_upper (fst kv).
Proof.
  induction l as [|kv l IH]; intros d X H; simpl in *; [auto|].
  destruct (IH _ _ H) as [H1|[kv' [Hin Hk]]]; [|right; exists kv'; auto].
  unfold kw_upper_step in H1. destruct (String.eqb (fst kv) "outGlo") eqn:E; [auto|].
  rewrite dict_keys_set in H1. destruct (in_add_key _ _ _ H1) as [H2|H2]; [auto|].
  right. exists kv. split; [auto|]. split; [|exact H2].
  intros Hc; rewrite Hc in E; discriminate.
Qed.

(** A parameter name no keyword argument spells (outside [outGlo]) is not
    found in [kwupper]. *)
Lemma kw_upper_absent kwargs X :
  Forall (fun kv => fst kv = "outGlo" \/ py_upper (fst kv) <> X) kwargs ->
  dict_get (kw_upper py_upper (merge_kwargs kwargs)) X = None.
Proof.
  intros HF. apply dict_get_none. intros Hin.
  unfold kw_upper in Hin. apply kw_upper_fold_keys in Hin as [[]|[[k v] [Hin [Hk HX]]]].
  simpl in Hk, HX. subst X.
  assert (Hk' : In k (dict_keys (merge_kwargs kwargs))).
  { apply in_map with (f := fst) in Hin. exact Hin. }
  apply merge_fold_keys in Hk' as [[Ho|[]]|Hk']; [simpl in Ho; subst; tauto|].
  apply in_map_iff in Hk' as [[k' v'] [Hk1 Hin']]. simpl in Hk1; subst k'.
  rewrite Forall_forall in HF. destruct (HF _ Hin') as [H|H]; simpl in H; tauto.
Qed.

(** With distinct keyword names (as Python guarantees), the merged dict is
    [outGlo] followed by the other keywords in call order. *)
Lemma merge_fold_shape : forall l vo rest,
  NoDup (map fst l) ->
  (forall k, In k (map fst l) -> ~ In k (dict_keys rest)) ->
  ~ In "outGlo" (dict_keys rest) ->
  exists vo', fold_left merge_step l (("outGlo", vo) :: rest) =
              ("outGlo", vo') :: rest ++ filter not_outglo l.
Proof.
  induction l as [|[k v] l IH]; intros vo rest Hnd Hdis Hout; cbn [fold_left filter].
  - exists vo. rewrite app_nil_r. reflexivity.
  - inversion Hnd as [|? ? Hk Hnd']; subst.
    assert (Hstep : merge_step (("outGlo", vo) :: rest) (k, v) =
              if String.eqb k "outGlo" then ("outGlo", v) :: rest
              else ("outGlo", vo) :: dict_set rest k v) by reflexivity.
    rewrite Hstep. unfold not_outglo at 1; cbn [fst].
    destruct (String.eqb k "outGlo") eqn:E; cbn [negb].
    + apply (IH v rest Hnd'); [|exact Hout].
      intros k' Hk'; apply Hdis; right; exact Hk'.
    + rewrite dict_set_new by (apply Hdis; left; reflexivity).
      destruct (IH vo (rest ++ [(k, v)]) Hnd') as [vo' Hvo].
      * intros k' Hk' Hin. unfold dict_keys in Hin. rewrite map_app in Hin.
        apply in_app_or in Hin as [Hin|[Hin|[]]].
        -- apply (Hdis k'); [right; exact Hk'|exact Hin].
        -- simpl in Hin; subst k'. contradiction.
      * intros Hin. unfold dict_keys in Hin. rewrite map_app in Hin.
        apply in_app_or in Hin as [Hin|[Hin|[]]]; [contradiction|].
        simpl in Hin. rewrite Hin, String.eqb_refl in E. discriminate.
      * exists vo'. rewrite Hvo, <- app_assoc. reflexivity.
Qed.

Lemma kw_fold_get_later X : forall post d,
  Forall (fun kv => fst kv = "outGlo" \/ py_upper (fst kv) <> X) post ->
  dict_get (fold_left (kw_upper_step py_upper) post d) X = dict_get d X.
Proof.
  induction post as [|kv post IH]; intros d HF; simpl; [reflexivity|].
  inversion HF as [|? ? Hkv HF']; subst. rewrite (IH _ HF').
  unfold kw_upper_step. destruct (String.eqb (fst kv) "outGlo") eqn:E; [reflexivity|].
  rewrite dict_get_set. destruct (String.eqb X (py_upper (fst kv))) eqn:E2; [|reflexivity].
  apply String.eqb_eq in E2. destruct Hkv as [Hkv|Hkv].
  - rewrite Hkv in E; discriminate.
  - symmetry in E2; contradiction.
Qed.

(** The value [kwupper] holds for an upper-cased name: the last keyword
    argument spelling it. *)
Lemma kw_upper_last kwargs pre k v post :
  NoDup (map fst kwargs) -> kwargs = pre ++ (k, v) :: post -> k <> "outGlo" ->
  Forall (fun kv => fst kv = "outGlo" \/ py_upper (fst kv) <> py_upper k) post ->
  dict_get (kw_upper py_upper (merge_kwargs kwargs)) (py_upper k) = Some v.
Proof.
  intros Hnd -> Hk HF.
  destruct (merge_fold_shape (pre ++ (k, v) :: post) (PStr "^result") [] Hnd
              ltac:(intros; simpl; tauto) ltac:(simpl; tauto)) as [vo Hm].
  unfold merge_kwargs, kw_upper. rewrite Hm. simpl.
  rewrite filter_app. simpl. unfold not_outglo at 2. simpl.
  replace (String.eqb k "outGlo") with false
    by (symmetry; apply String.eqb_neq; exact Hk).
  simpl. rewrite fold_left_app. simpl.
  rewrite kw_fold_get_later.
  - unfold kw_upper_step at 1. simpl.
    replace (String.eqb k "outGlo") with false
      by (symmetry; apply String.eqb_neq; exact Hk).
    rewrite dict_get_set, String.eqb_refl. reflexivity.
  - rewrite Forall_forall in *. intros x Hx. apply filter_In in Hx as [Hx _]. auto.
Qed.

(** ** One formal parameter *)

Lemma bind_param_named tbl kw args i argument parts v :
  param_parts argument = inr parts -> dict_get kw (param_name py_upper parts) = Some v ->
  bind_param py_upper tbl kw args i argument = inr v.
Proof. intros Hp Hk. unfold bind_param. rewrite Hp, Hk. reflexivity. Qed.

Lemma bind_param_default tbl kw args i argument parts dflt :
  param_parts argument = inr parts -> dict_get kw (param_name py_upper parts) = None ->
  (length args <= i - 2)%nat -> nth_error parts 1 = Some dflt ->
  bind_param py_upper tbl kw args i argument =
    if String.eqb dflt empty_sentinel then inr (PStr "")
    else if String.eqb (py_prefix3 dflt) dollar3 then iknow_macro tbl dflt
    else inr (PStr dflt).
Proof.
  intros Hp Hk Ha Hd. unfold bind_param. rewrite Hp, Hk.
  replace (i - 2 <? length args)%nat with false by (symmetry; apply Nat.ltb_ge; exact Ha).
  assert (Hl : (1 <? length parts)%nat = true).
  { apply Nat.ltb_lt. apply nth_error_Some. rewrite Hd. discriminate. }
  rewrite Hl. rewrite (nth_error_nth _ _ "" Hd). reflexivity.
Qed.

(** Only the slot [i - 2] of the positional arguments matters. *)
Lemma bind_param_args tbl kw args args' i argument :
  (i - 2 <? length args)%nat = (i - 2 <? length args')%nat ->
  ((i - 2 < length args)%nat -> nth_error args (i - 2) = nth_error args' (i - 2)) ->
  bind_param py_upper tbl kw args i argument = bind_param py_upper tbl kw args' i argument.
Proof.
  intros Hl Hn. unfold bind_param.
  destruct (param_parts argument) as [e|parts]; [reflexivity|].
  destruct (dict_get kw (param_name py_upper parts)); [reflexivity|].
  rewrite <- Hl. destruct (i - 2 <? length args)%nat eqn:E; [|reflexivity].
  apply Nat.ltb_lt in E. unfold py_index. rewrite (Hn E). reflexivity.
Qed.

Lemma bind_param_kw tbl kw kw' args i argument :
  (forall parts, param_parts argument = inr parts ->
     dict_get kw (param_name py_upper parts) = dict_get kw' (param_name py_upper parts)) ->
  bind_param py_upper tbl kw args i argument = bind_param py_upper tbl kw' args i argument.
Proof.
  intros H. unfold bind_param.
  destruct (param_parts argument) as [e|parts]; [reflexivity|].
  rewrite (H parts eq_refl). reflexivity.
Qed.

(** A keyword argument with a new name, added last. *)
Lemma kw_upper_snoc kwargs k v :
  ~ In k (map fst kwargs) -> k <> "outGlo" ->
  kw_upper py_upper (merge_kwargs (kwargs ++ [(k, v)])) =
  dict_set (kw_upper py_upper (merge_kwargs kwargs)) (py_upper k) v.
Proof.
  intros Hk Ho. unfold merge_kwargs at 1. rewrite fold_left_app. simpl.
  unfold merge_step at 1; simpl. rewrite dict_set_new.
  - unfold kw_upper. rewrite fold_left_app. simpl. unfold kw_upper_step at 1; simpl.
    replace (String.eqb k "outGlo") with false
      by (symmetry; apply String.eqb_neq; exact Ho).
    reflexivity.
  - intros Hin. apply merge_fold_keys in Hin as [[Hin|[]]|Hin]; [|contradiction].
    simpl in Hin. symmetry in Hin. contradiction.
Qed.




End Binding.

(** * Claims *)

(** ** Rows *)

(** C1 (counterexample): with the result schema ["entity:%String,entity:%Integer"]
    the resolved column names are [["entity"; "entity"]], but the dict built
    for each row has the single key ["entity"]. *)
Lemma C1_duplicate_column_counterexample :
  ~ (forall rows st',
       iknow_query Demo.server_dup_cols Demo.entity_api "GetTop" (PInt 1) [] [] Demo.st0
         = (inr rows, st') ->
       Forall (fun row => dict_keys row =
                 return_cols_of (py_split "," "entity:%String,entity:%Integer")) rows).
Proof.
  intros H.
  specialize (H [[("entity", PStr "hello")]; [("entity", PStr "text")]]
                (mkState [] [(Demo.entity_api, "GetTop",
                   [PStr "^result"; PInt 1; PStr "1"; PStr "10"; PStr ""; PStr "3"])])).
  assert (Hq : iknow_query Demo.server_dup_cols Demo.entity_api "GetTop" (PInt 1) [] []
                 Demo.st0 =
               (inr [[("entity", PStr "hello")]; [("entity", PStr "text")]],
                mkState [] [(Demo.entity_api, "GetTop",
                   [PStr "^result"; PInt 1; PStr "1"; PStr "10"; PStr ""; PStr "3"])]))
    by (vm_compute; reflexivity).
  specialize (H Hq). inversion H as [|? ? Hrow _]. vm_compute in Hrow. discriminate.
Qed.

(** C1 (amended): when a dispatch returns normally, the keys of every row
    are the resolved column names (the part before [':'] of each entry of
    the [...RT] parameter's default) with repeated names kept only at their
    first position; when the names are pairwise distinct they are exactly
    the resolved column names, in order. *)
Theorem iknow_query_row_keys E api method d args kwargs st rows st' :
  iknow_query E api method d args kwargs st = (inr rows, st') ->
  exists md, param_default E (api ++ "||" ++ method ++ "RT") = Some md /\
    Forall (fun row =>
              dict_keys row = dedup_first (return_cols_of (py_split "," md)) /\
              (NoDup (return_cols_of (py_split "," md)) ->
               dict_keys row = return_cols_of (py_split "," md))) rows.
Proof.
  intros H. apply iknow_query_cases in H.
  destruct H as [[_ [e He]]|[raw [types [raw2 [full [o [g' [Hs [_ [_ [_ [_ Ho]]]]]]]]]]]];
    [discriminate|].
  unfold result_schema in Hs.
  destruct (param_default E (api ++ "||" ++ method ++ "RT")) as [md|]; [|discriminate].
  injection Hs; intros; subst raw. exists md. split; [reflexivity|].
  destruct o as [e|u]; [destruct Ho as [Hr _]; discriminate|].
  cbv zeta in Ho.
  destruct (drain_loop _ _ _ _ _) as [e|rows'] eqn:Hd; destruct Ho as [Hr _]; [discriminate|].
  injection Hr; intros; subst rows'.
  apply drain_loop_rows in Hd. rewrite Forall_forall in *.
  intros row Hrow. split; [exact (Hd row Hrow)|].
  intros Hnd. rewrite (Hd row Hrow). apply dedup_first_nodup. exact Hnd.
Qed.

Lemma iknow_query_row_keys_witness :
  iknow_query Demo.server Demo.entity_api "GetTop" (PInt 1) [] [] Demo.st0 =
    (inr Demo.get_top_rows,
     mkState [] [(Demo.entity_api, "GetTop",
                  [PStr "^result"; PInt 1; PStr "1"; PStr "10"; PStr ""; PStr "3"])]) /\
  exists md, param_default Demo.server (Demo.entity_api ++ "||" ++ "GetTop" ++ "RT") = Some md /\
    Forall (fun row =>
              dict_keys row = dedup_first (return_cols_of (py_split "," md)) /\
              (NoDup (return_cols_of (py_split "," md)) ->
               dict_keys row = return_cols_of (py_split "," md))) Demo.get_top_rows.
Proof.
  assert (Hq : iknow_query Demo.server Demo.entity_api "GetTop" (PInt 1) [] [] Demo.st0 =
    (inr Demo.get_top_rows,
     mkState [] [(Demo.entity_api, "GetTop",
                  [PStr "^result"; PInt 1; PStr "1"; PStr "10"; PStr ""; PStr "3"])]))
    by (vm_compute; reflexivity).
  split; [exact Hq|]. exact (iknow_query_row_keys _ _ _ _ _ _ _ _ _ Hq).
Defined.

(** ** Keyword arguments *)

(** C2 (counterexample): two keyword spellings of one parameter
    ([page=5, PAGE=6]) bind the later one, so [page]'s own value is not the
    one bound; and a keyword named [outGlo] is the output global, never a
    parameter, even when the method declares a parameter [outglo]. *)
Lemma C2_keyword_counterexample :
  bind_loop ascii_upper Demo.ikpublic_lines
    (kw_upper ascii_upper (merge_kwargs [("page", PInt 5); ("PAGE", PInt 6)])) [] 0
    (py_split "," Demo.get_top_spec) = inr [PInt 6; PStr "10"; PStr ""; PStr "3"] /\
  bind_loop ascii_upper Demo.ikpublic_lines
    (kw_upper ascii_upper (merge_kwargs [("outGlo", PStr "^mine")])) [] 0
    (py_split "," Demo.outglo_param_spec) = inr [PStr "none"].
Proof. split; vm_compute; reflexivity. Qed.

(** C2 (amended): for a formal parameter after the first two, if the
    caller passes a keyword argument other than [outGlo] whose upper-cased
    name is the parameter's upper-cased name, and no later keyword argument
    (other than [outGlo]) upper-cases to that name, the bound value is that
    keyword's value, whatever the positional arguments are. *)
Theorem iknow_query_named_arg_wins (py_upper : string -> string) tbl kwargs pre k v post args raw full i argument parts :
  NoDup (map fst kwargs) -> kwargs = pre ++ (k, v) :: post -> k <> "outGlo" ->
  (2 <= i)%nat -> nth_error raw i = Some argument -> param_parts argument = inr parts ->
  py_upper k = param_name py_upper parts ->
  Forall (fun kv => fst kv = "outGlo" \/ py_upper (fst kv) <> param_name py_upper parts) post ->
  bind_loop py_upper tbl (kw_upper py_upper (merge_kwargs kwargs)) args 0 raw = inr full ->
  nth_error full (i - 2) = Some v.
Proof.
  intros Hnd Hkw Hk Hi Ha Hp Hn HF Hb.
  rewrite <- Hn in HF.
  pose proof (kw_upper_last kwargs pre k v post Hnd Hkw Hk HF) as Hg.
  rewrite Hn in Hg.
  destruct (bind_loop_param _ _ _ _ _ _ _ Hb Hi Ha) as [w [Hw Hf]].
  rewrite (bind_param_named tbl _ args i argument parts v Hp Hg) in Hw.
  injection Hw; intros; subst w. exact Hf.
Qed.

Lemma iknow_query_named_arg_wins_witness :
  nth_error [PInt 6; PStr "10"; PStr ""; PStr "3"] (3 - 2) = Some (PStr "10") /\
  nth_error [PInt 6; PStr "10"; PStr ""; PStr "3"] (2 - 2) = Some (PInt 6).
Proof.
  split.
  - apply (iknow_query_named_arg_wins ascii_upper Demo.ikpublic_lines
             [("page", PInt 6); ("pageSize", PStr "10")] [("page", PInt 6)] "pageSize" (PStr "10") []
             [PInt 1] (py_split "," Demo.get_top_spec) [PInt 6; PStr "10"; PStr ""; PStr "3"] 3
             "pagesize:%Integer=10" ["pagesize:%Integer"; "10"]);
      first [ vm_compute; reflexivity | lia | discriminate
            | repeat constructor; simpl; intuition discriminate ].
  - apply (iknow_query_named_arg_wins ascii_upper Demo.ikpublic_lines
             [("page", PInt 5); ("PAGE", PInt 6)] [("page", PInt 5)] "PAGE" (PInt 6) []
             [] (py_split "," Demo.get_top_spec) [PInt 6; PStr "10"; PStr ""; PStr "3"] 2
             "page:%Integer=1" ["page:%Integer"; "1"]);
      first [ vm_compute; reflexivity | lia | discriminate
            | repeat constructor; simpl; intuition discriminate ].
Defined.

(** ** Positional arguments *)




(** ** Macro defaults *)

(** C4 (counterexample): with no [FILTERONLY] line in [%IKPublic] the
    [filtermode] default resolves to [None], which is bound and sent; the
    dispatch returns normally. *)
Lemma C4_unresolved_macro_counterexample :
  iknow_query Demo.server_no_macro Demo.entity_api "GetTop" (PInt 1) [] [] Demo.st0 =
  (inr Demo.get_top_rows,
   mkState [] [(Demo.entity_api, "GetTop",
                [PStr "^result"; PInt 1; PStr "1"; PStr "10"; PStr ""; PNone])]).
Proof. vm_compute. reflexivity. Qed.

(** C4 (amended): for a formal parameter after the first two that no
    keyword argument names (other than [outGlo]; names are compared after
    [str.upper]) and no positional argument covers, whose default is a
    [$$$] token that [iknow_macro] resolves to [None] (the scan of the
    include file ends without a match), binding that parameter raises
    nothing and yields [None], and every call the dispatch makes to the
    method passes [None] at that parameter's position. *)
Theorem iknow_query_unresolved_macro_binds_none E api method d args kwargs st raw2
    i argument parts dflt :
  method_spec E api method = inr raw2 ->
  (2 <= i)%nat -> nth_error raw2 i = Some argument -> param_parts argument = inr parts ->
  Forall (fun kv => fst kv = "outGlo" \/ str_upper E (fst kv) <> param_name (str_upper E) parts)
    kwargs ->
  (length args <= i - 2)%nat ->
  nth_error parts 1 = Some dflt -> py_prefix3 dflt = dollar3 ->
  iknow_macro (ikpublic E) dflt = inr PNone ->
  bind_param (str_upper E) (ikpublic E) (kw_upper (str_upper E) (merge_kwargs kwargs))
    args i argument = inr PNone /\
  forall r st', iknow_query E api method d args kwargs st = (r, st') ->
    exists calls, st_calls st' = st_calls st ++ calls /\
      Forall (fun c : call => nth_error (snd c) i = Some PNone) calls.
Proof.
  intros Hm2 Hi Ha Hp HF Hl Hd Hpre Hm.
  pose proof (kw_upper_absent kwargs _ HF) as Hk.
  assert (Hb : bind_param (str_upper E) (ikpublic E)
                 (kw_upper (str_upper E) (merge_kwargs kwargs)) args i argument = inr PNone).
  { rewrite (bind_param_default _ _ args i argument parts dflt Hp Hk Hl Hd).
    destruct (String.eqb dflt empty_sentinel) eqn:E1.
    - apply String.eqb_eq in E1. subst dflt. discriminate.
    - rewrite Hpre, String.eqb_refl. exact Hm. }
  split; [exact Hb|]. intros r st' Hq.
  apply iknow_query_cases in Hq.
  destruct Hq as [[-> _]|[raw [types [raw2' [full [o [g' [_ [_ [Hm' [Hf [_ Ho]]]]]]]]]]]].
  - exists []. split; [rewrite app_nil_r; reflexivity|constructor].
  - rewrite Hm2 in Hm'. injection Hm'; intros; subst raw2'.
    destruct (bind_loop_param _ _ _ _ _ _ _ Hf Hi Ha) as [w [Hw Hn]].
    rewrite Hb in Hw. injection Hw; intros; subst w.
    exists [(api, method, out_glo (merge_kwargs kwargs) :: d :: full)]. split.
    + destruct o as [e|u]; [destruct Ho as [_ ->]; reflexivity|].
      cbv zeta in Ho. destruct (drain_loop _ _ _ _ _); destruct Ho as [_ ->]; reflexivity.
    + constructor; [|constructor]. simpl.
      destruct i as [|[|i']]; [lia|lia|]. simpl. simpl in Hn. rewrite Nat.sub_0_r in Hn. exact Hn.
Qed.

Lemma iknow_query_unresolved_macro_binds_none_witness :
  bind_param ascii_upper ["#define SORTBYFREQUENCY 0"]
    (kw_upper ascii_upper (merge_kwargs [("page", PInt 2)])) [] 5
    "filtermode:%Integer=$$$FILTERONLY" = inr PNone /\
  forall r st', iknow_query Demo.server_no_macro Demo.entity_api "GetTop" (PInt 1) []
                  [("page", PInt 2)] Demo.st0 = (r, st') ->
    exists calls, st_calls st' = st_calls Demo.st0 ++ calls /\
      Forall (fun c : call => nth_error (snd c) 5 = Some PNone) calls.
Proof.
  apply (iknow_query_unresolved_macro_binds_none Demo.server_no_macro Demo.entity_api "GetTop"
           (PInt 1) [] [("page", PInt 2)] Demo.st0 (py_split "," Demo.get_top_spec) 5
           "filtermode:%Integer=$$$FILTERONLY" ["filtermode:%Integer"; "$$$FILTERONLY"]
           "$$$FILTERONLY");
    first [ vm_compute; reflexivity | simpl; lia
          | apply Forall_cons; [right; vm_compute; discriminate | apply Forall_nil] ].
Defined.

(** ** The output global *)

(** C5 (counterexample): the query writes a row into [^result] and then
    fails; the error propagates and [^result] still holds the row. *)
Lemma C5_failed_call_counterexample :
  let '(r, st') :=
    iknow_query Demo.server_failing Demo.entity_api "GetTop" (PInt 1) [] [] Demo.st0 in
  r = inl (ServerError "<COMMAND>") /\
  glo_get (st_globals st') (PStr "^result") = [(1%Z, [PInt 1; PStr "hello"; PInt 2; PInt 2])].
Proof. vm_compute. split; reflexivity. Qed.

(** C5 (amended): the output global is killed only on a normal return:
    then it holds no node.  When the dispatch raises, either nothing was
    called and the state is untouched, or the method was called and the
    globals are exactly those the call left behind (its own failure, or a
    failure while reading the rows, skips the kill). *)
Theorem iknow_query_purge_on_normal_return E api method d args kwargs st r st' :
  iknow_query E api method d args kwargs st = (r, st') ->
  match r with
  | inr _ => glo_get (st_globals st') (out_glo (merge_kwargs kwargs)) = []
  | inl _ =>
      st' = st \/
      exists full o,
        st_calls st' = st_calls st ++ [(api, method, out_glo (merge_kwargs kwargs) :: d :: full)] /\
        remote E api method (out_glo (merge_kwargs kwargs) :: d :: full) (st_globals st)
          = (o, st_globals st')
  end.
Proof.
  intros H. apply iknow_query_cases in H.
  destruct H as [[Hst [e He]]|[raw [types [raw2 [full [o [g' [_ [_ [_ [_ [Hr Ho]]]]]]]]]]]].
  - subst r. left. exact Hst.
  - destruct o as [e|u].
    + destruct Ho as [-> ->]. right. exists full, (inl e). split; reflexivity || exact Hr.
    + cbv zeta in Ho. destruct (drain_loop _ _ _ _ _) as [e|rows].
      * destruct Ho as [-> ->]. right. exists full, (inr u). split; reflexivity || exact Hr.
      * destruct Ho as [-> ->]. apply glo_get_kill.
Qed.

Lemma iknow_query_purge_on_normal_return_witness :
  iknow_query Demo.server_failing Demo.entity_api "GetTop" (PInt 1) [] [] Demo.st0 =
    (inl (ServerError "<COMMAND>"),
     mkState [(PStr "^result", [(1%Z, [PInt 1; PStr "hello"; PInt 2; PInt 2])])]
             [(Demo.entity_api, "GetTop",
               [PStr "^result"; PInt 1; PStr "1"; PStr "10"; PStr ""; PStr "3"])]) /\
  (mkState [(PStr "^result", [(1%Z, [PInt 1; PStr "hello"; PInt 2; PInt 2])])]
           [(Demo.entity_api, "GetTop",
             [PStr "^result"; PInt 1; PStr "1"; PStr "10"; PStr ""; PStr "3"])] = Demo.st0 \/
   exists full o,
     [(Demo.entity_api, "GetTop",
       [PStr "^result"; PInt 1; PStr "1"; PStr "10"; PStr ""; PStr "3"])] =
       st_calls Demo.st0 ++
       [(Demo.entity_api, "GetTop", out_glo (merge_kwargs []) :: PInt 1 :: full)] /\
     remote Demo.server_failing Demo.entity_api "GetTop"
       (out_glo (merge_kwargs []) :: PInt 1 :: full) (st_globals Demo.st0) =
       (o, [(PStr "^result", [(1%Z, [PInt 1; PStr "hello"; PInt 2; PInt 2])])])).
Proof.
  assert (Hq : iknow_query Demo.server_failing Demo.entity_api "GetTop" (PInt 1) [] [] Demo.st0 =
    (inl (ServerError "<COMMAND>"),
     mkState [(PStr "^result", [(1%Z, [PInt 1; PStr "hello"; PInt 2; PInt 2])])]
             [(Demo.entity_api, "GetTop",
               [PStr "^result"; PInt 1; PStr "1"; PStr "10"; PStr ""; PStr "3"])]))
    by (vm_compute; reflexivity).
  split; [exact Hq|]. exact (iknow_query_purge_on_normal_return _ _ _ _ _ _ _ _ _ Hq).
Defined.

(** ** Short rows *)

(** C6 (counterexample): a one-field row under a two-column schema.  With
    an [IRISList.get] answering [None] past the end the row has two
    entries, not [min 1 2 = 1]; with one raising past the end the dispatch
    raises. *)
Lemma C6_short_payload_counterexample :
  (exists rows st',
     iknow_query Demo.server_short Demo.entity_api "GetTop" (PInt 1) [] [] Demo.st0
       = (inr rows, st') /\
     map (@length _) rows <> [Nat.min (length [PStr "fish"]) (length (py_split "," Demo.short_rt))]) /\
  fst (iknow_query Demo.server_short_strict Demo.entity_api "GetTop" (PInt 1) [] [] Demo.st0)
    = inl IndexError.
Proof.
  split.
  - exists [[("entity", PStr "fish"); ("frequency", PNone)]],
      (mkState [] [(Demo.entity_api, "GetTop",
                    [PStr "^result"; PInt 1; PStr "1"; PStr "10"; PStr ""; PStr "3"])]).
    split; [vm_compute; reflexivity|]. vm_compute. discriminate.
  - vm_compute. reflexivity.
Qed.

(** C6 (amended): a row is never cut to the fields present: [build_row]
    asks [IRISList.get(i+1)] for every column index [i], whatever the
    payload's length, and stores its value under column [i].  Either one
    of these calls raises, the calls before it having returned, and the
    error propagates; or every call returned, the row has one entry per
    distinct column name, and the column named last at index [i] holds
    the value [get(i+1)] returned, also where [i+1] is past the end of
    the payload. *)
Theorem build_row_every_column get raw_row cols :
  (forall row, build_row get raw_row cols 0 [] = inr row ->
     dict_keys row = dedup_first cols /\
     (forall i, (i < length cols)%nat -> exists v, get raw_row (i + 1)%nat = inr v) /\
     (forall i col, nth_error cols i = Some col -> ~ In col (skipn (S i) cols) ->
        exists v, get raw_row (i + 1)%nat = inr v /\ dict_get row col = Some v)) /\
  (forall e, build_row get raw_row cols 0 [] = inl e ->
     exists n, (n < length cols)%nat /\ get raw_row (n + 1)%nat = inl e /\
       forall m, (m < n)%nat -> exists v, get raw_row (m + 1)%nat = inr v).
Proof.
  split.
  - intros row H. split; [|split].
    + apply build_row_keys in H. exact H.
    + exact (build_row_gets_ok get raw_row cols 0 [] row H).
    + intros i col Hi Hn. exact (build_row_values_from get raw_row cols 0 [] row i col H Hi Hn).
  - intros e H. exact (build_row_error_first get raw_row cols 0 [] e H).
Qed.

(** ** Literal defaults *)

(** C7: a formal parameter after the first two whose default is the
    sentinel ['""'], passed neither by keyword (other than the reserved
    [outGlo]) nor by position, is bound to the empty string (not [None]). *)
Theorem iknow_query_empty_sentinel_binds_empty (py_upper : string -> string) tbl kwargs args raw full i argument parts :
  (2 <= i)%nat -> nth_error raw i = Some argument -> param_parts argument = inr parts ->
  Forall (fun kv => fst kv = "outGlo" \/ py_upper (fst kv) <> param_name py_upper parts) kwargs ->
  (length args <= i - 2)%nat -> nth_error parts 1 = Some empty_sentinel ->
  bind_loop py_upper tbl (kw_upper py_upper (merge_kwargs kwargs)) args 0 raw = inr full ->
  nth_error full (i - 2) = Some (PStr "").
Proof.
  intros Hi Ha Hp HF Hl Hd Hb.
  pose proof (kw_upper_absent kwargs (param_name py_upper parts) HF) as Hk.
  destruct (bind_loop_param _ _ _ _ _ _ _ Hb Hi Ha) as [w [Hw Hn]].
  rewrite (bind_param_default tbl _ args i argument parts empty_sentinel Hp Hk Hl Hd) in Hw.
  rewrite String.eqb_refl in Hw. injection Hw; intros; subst w. exact Hn.
Qed.

Lemma iknow_query_empty_sentinel_binds_empty_witness :
  nth_error [PStr "1"; PStr "10"; PStr ""; PStr "3"] (4 - 2) = Some (PStr "").
Proof.
  apply (iknow_query_empty_sentinel_binds_empty ascii_upper Demo.ikpublic_lines [("page", PStr "1")] []
           (py_split "," Demo.get_top_spec) [PStr "1"; PStr "10"; PStr ""; PStr "3"] 4
           ("filter:%iKnow.Filters.Filter=" ++ empty_sentinel)
           ["filter:%iKnow.Filters.Filter"; empty_sentinel]);
    first [ vm_compute; reflexivity | simpl; lia
          | apply Forall_cons; [right; vm_compute; discriminate | apply Forall_nil] ].
Defined.

(** C8 (counterexample): on [GetTop], passing [filtermode] explicitly as
    its default text ["$$$FILTERONLY"] sends that text, while omitting it
    sends the macro's value ["3"]; passing [filter] positionally as its
    default text ['""'] sends those two quote characters, while omitting it
    sends [""]. *)
Lemma C8_explicit_default_counterexample :
  bind_loop ascii_upper Demo.ikpublic_lines (kw_upper ascii_upper (merge_kwargs [("filtermode", PStr "$$$FILTERONLY")]))
    [] 0 (py_split "," Demo.get_top_spec) <>
  bind_loop ascii_upper Demo.ikpublic_lines (kw_upper ascii_upper (merge_kwargs [])) [] 0 (py_split "," Demo.get_top_spec) /\
  bind_loop ascii_upper Demo.ikpublic_lines (kw_upper ascii_upper (merge_kwargs []))
    [PStr "1"; PStr "10"; PStr empty_sentinel] 0 (py_split "," Demo.get_top_spec) <>
  bind_loop ascii_upper Demo.ikpublic_lines (kw_upper ascii_upper (merge_kwargs []))
    [PStr "1"; PStr "10"] 0 (py_split "," Demo.get_top_spec).
Proof. split; vm_compute; discriminate. Qed.

(** C8 (amended): for a formal parameter after the first two whose default
    text is neither the sentinel ['""'] nor a [$$$] token, passing that
    text explicitly gives the same vector as omitting it: positionally,
    right after the arguments of the earlier slots; or by a new keyword
    (not [outGlo]) spelling its name, when no other keyword spells it and
    no other formal parameter has the same upper-cased name. *)
Theorem iknow_query_explicit_default_same_vector (py_upper : string -> string) tbl raw j argument parts dflt :
  (2 <= j)%nat -> nth_error raw j = Some argument -> param_parts argument = inr parts ->
  nth_error parts 1 = Some dflt -> dflt <> empty_sentinel -> py_prefix3 dflt <> dollar3 ->
  (forall kw args, length args = (j - 2)%nat ->
     bind_loop py_upper tbl kw (args ++ [PStr dflt]) 0 raw = bind_loop py_upper tbl kw args 0 raw) /\
  (forall kwargs args k,
     ~ In k (map fst kwargs) -> k <> "outGlo" -> py_upper k = param_name py_upper parts ->
     Forall (fun kv => fst kv = "outGlo" \/ py_upper (fst kv) <> param_name py_upper parts) kwargs ->
     (length args <= j - 2)%nat ->
     (forall i a p, i <> j -> (2 <= i)%nat -> nth_error raw i = Some a ->
        param_parts a = inr p -> param_name py_upper p <> param_name py_upper parts) ->
     bind_loop py_upper tbl (kw_upper py_upper (merge_kwargs (kwargs ++ [(k, PStr dflt)]))) args 0 raw =
     bind_loop py_upper tbl (kw_upper py_upper (merge_kwargs kwargs)) args 0 raw).
Proof.
  intros Hj Ha Hp Hd Hs Hpre.
  assert (Hdef : forall kw args, dict_get kw (param_name py_upper parts) = None ->
            (length args <= j - 2)%nat -> bind_param py_upper tbl kw args j argument = inr (PStr dflt)).
  { intros kw args Hk Hl.
    rewrite (bind_param_default tbl kw args j argument parts dflt Hp Hk Hl Hd).
    replace (String.eqb dflt empty_sentinel) with false
      by (symmetry; apply String.eqb_neq; exact Hs).
    replace (String.eqb (py_prefix3 dflt) dollar3) with false
      by (symmetry; apply String.eqb_neq; exact Hpre).
    reflexivity. }
  split.
  - intros kw args Hl. apply bind_loop_ext. intros n a Hn Hle. cbn [Nat.add] in Hle |- *.
    destruct (Nat.lt_total n j) as [Hlt|[Heq|Hgt]].
    + apply bind_param_args.
      * rewrite length_app. simpl.
        replace (n - 2 <? length args + 1)%nat with true by (symmetry; apply Nat.ltb_lt; lia).
        symmetry. apply Nat.ltb_lt. lia.
      * intros _. apply nth_error_app1. lia.
    + subst n. rewrite Hn in Ha. injection Ha; intros; subst a.
      destruct (dict_get kw (param_name py_upper parts)) as [v|] eqn:Hk.
      * rewrite (bind_param_named tbl kw _ j argument parts v Hp Hk).
        rewrite (bind_param_named tbl kw _ j argument parts v Hp Hk). reflexivity.
      * rewrite (Hdef kw args Hk ltac:(lia)).
        unfold bind_param. rewrite Hp, Hk, length_app. simpl.
        replace (j - 2 <? length args + 1)%nat with true by (symmetry; apply Nat.ltb_lt; lia).
        unfold py_index. rewrite nth_error_app2 by lia.
        replace (j - 2 - length args)%nat with O by lia. reflexivity.
    + apply bind_param_args.
      * rewrite length_app. simpl.
        replace (n - 2 <? length args + 1)%nat with false by (symmetry; apply Nat.ltb_ge; lia).
        symmetry. apply Nat.ltb_ge. lia.
      * intros H. rewrite length_app in H. simpl in H. lia.
  - intros kwargs args k Hnew Ho Hk HF Hl Huniq.
    rewrite (kw_upper_snoc kwargs k (PStr dflt) Hnew Ho), Hk.
    apply bind_loop_ext. intros n a Hn Hle. cbn [Nat.add] in Hle |- *.
    destruct (Nat.eq_dec n j) as [->|Hne].
    + rewrite Hn in Ha. injection Ha; intros; subst a.
      rewrite (Hdef _ args (kw_upper_absent kwargs _ HF) Hl).
      apply (bind_param_named tbl _ args j argument parts).
      * exact Hp.
      * rewrite dict_get_set, String.eqb_refl. reflexivity.
    + apply bind_param_kw. intros p Hpa.
      rewrite dict_get_set.
      replace (String.eqb (param_name py_upper p) (param_name py_upper parts)) with false; [reflexivity|].
      symmetry. apply String.eqb_neq. exact (Huniq n a p Hne Hle Hn Hpa).
Qed.

Lemma iknow_query_explicit_default_same_vector_witness :
  (forall kw args, length args = (3 - 2)%nat ->
     bind_loop ascii_upper Demo.ikpublic_lines kw (args ++ [PStr "10"]) 0 (py_split "," Demo.get_top_spec) =
     bind_loop ascii_upper Demo.ikpublic_lines kw args 0 (py_split "," Demo.get_top_spec)) /\
  (forall kwargs args k,
     ~ In k (map fst kwargs) -> k <> "outGlo" ->
     ascii_upper k = param_name ascii_upper ["pagesize:%Integer"; "10"] ->
     Forall (fun kv => fst kv = "outGlo" \/
                       ascii_upper (fst kv) <> param_name ascii_upper ["pagesize:%Integer"; "10"]) kwargs ->
     (length args <= 3 - 2)%nat ->
     (forall i a p, i <> 3%nat -> (2 <= i)%nat -> nth_error (py_split "," Demo.get_top_spec) i = Some a ->
        param_parts a = inr p -> param_name ascii_upper p <> param_name ascii_upper ["pagesize:%Integer"; "10"]) ->
     bind_loop ascii_upper Demo.ikpublic_lines (kw_upper ascii_upper (merge_kwargs (kwargs ++ [(k, PStr "10")]))) args 0
       (py_split "," Demo.get_top_spec) =
     bind_loop ascii_upper Demo.ikpublic_lines (kw_upper ascii_upper (merge_kwargs kwargs)) args 0
       (py_split "," Demo.get_top_spec)).
Proof.
  apply (iknow_query_explicit_default_same_vector ascii_upper Demo.ikpublic_lines
           (py_split "," Demo.get_top_spec) 3 "pagesize:%Integer=10"
           ["pagesize:%Integer"; "10"] "10");
    first [ lia | vm_compute; reflexivity | vm_compute; discriminate ].
Defined.

(** ** [iknow_macro] and the result schema *)

(** C9: [iknow_macro] returns a value or [None] on every include file in
    which each line whose second space-separated field is the macro name
    has a third field; on a line [#define FILTERONLY] (two fields only) the
    guard [len(raw_line) > 1] lets [raw_line[2]] raise. *)
Theorem iknow_macro_needs_third_field :
  (forall tbl macro,
     (forall line, In line tbl ->
        nth 1 (py_split " " line) "" = macro_name macro ->
        (1 < length (py_split " " line))%nat -> (2 < length (py_split " " line))%nat) ->
     exists v, iknow_macro tbl macro = inr v) /\
  iknow_macro ["#define FILTERONLY"] "$$$FILTERONLY" = inl IndexError.
Proof.
  split; [|vm_compute; reflexivity].
  intros tbl macro. unfold iknow_macro. generalize (macro_name macro) as m.
  induction tbl as [|line tbl IH]; intros m H; simpl; [eexists; reflexivity|].
  destruct ((1 <? length (py_split " " line))%nat && String.eqb (nth 1 (py_split " " line) "") m)
    eqn:Hg.
  - apply andb_true_iff in Hg as [H1 H2].
    apply Nat.ltb_lt in H1. apply String.eqb_eq in H2.
    specialize (H line (or_introl eq_refl) H2 H1).
    unfold py_index. destruct (nth_error (py_split " " line) 2) eqn:Hn.
    + eexists; reflexivity.
    + apply nth_error_None in Hn. lia.
  - apply IH. intros l Hl. apply H. right. exact Hl.
Qed.

Lemma py_split_absent c s : ~ In c (list_ascii_of_string s) -> py_split c s = [s].
Proof.
  induction s as [|a s IH]; simpl; [reflexivity|].
  intros Hn. destruct (Ascii.eqb a c) eqn:E.
  - apply Ascii.eqb_eq in E. subst. exfalso. apply Hn. left. reflexivity.
  - rewrite IH; [reflexivity|]. intros H. apply Hn. right. exact H.
Qed.

Lemma map_res_index_error (l : list string) x :
  In x l -> py_split ":" x = [x] ->
  map_res (fun y => py_index (py_split ":" y) 1) l = inl IndexError.
Proof.
  induction l as [|y l IH]; simpl; [contradiction|].
  intros [<-|Hin] Hx.
  - rewrite Hx. reflexivity.
  - destruct (py_index (py_split ":" y) 1) as [e|t] eqn:Hy.
    + unfold py_index in Hy. destruct (nth_error _ 1); [discriminate|].
      injection Hy; intros; subst. reflexivity.
    + rewrite (IH Hin Hx). reflexivity.
Qed.

(** C10: if an entry of the result schema has no [':'], the dispatch
    raises [IndexError] while building the (otherwise unused) type list,
    before any method call: the state is unchanged. *)
Theorem iknow_query_untyped_schema_entry_raises E api method d args kwargs st md x :
  param_default E (api ++ "||" ++ method ++ "RT") = Some md ->
  In x (py_split "," md) -> ~ In ":"%char (list_ascii_of_string x) ->
  iknow_query E api method d args kwargs st = (inl IndexError, st).
Proof.
  intros Hmd Hx Hc.
  unfold iknow_query, mbind, lift. unfold result_schema at 1. rewrite Hmd.
  rewrite (map_res_index_error _ x Hx (py_split_absent _ _ Hc)). reflexivity.
Qed.

Lemma iknow_query_untyped_schema_entry_raises_witness :
  iknow_query Demo.server_untyped Demo.entity_api "GetTop" (PInt 1) [] [] Demo.st0
    = (inl IndexError, Demo.st0).
Proof.
  apply (iknow_query_untyped_schema_entry_raises Demo.server_untyped Demo.entity_api "GetTop"
           (PInt 1) [] [] Demo.st0 "entity" "entity").
  - vm_compute. reflexivity.
  - simpl. left. reflexivity.
  - simpl. intros [H|[H|[H|[H|[H|[H|[]]]]]]]; discriminate.
Defined.

(** * Further properties of the notebook code *)

(** ** Purely positional calls *)

Lemma skipn_cons_nth {A} (l : list A) m x :
  nth_error l m = Some x -> skipn m l = x :: skipn (S m) l.
Proof.
  revert l; induction m as [|m IH]; intros [|y l] H; simpl in *; try discriminate.
  - injection H; intros; subst. reflexivity.
  - apply IH. exact H.
Qed.

Section Positional.

Context {py_upper : string -> string}.

Lemma bind_loop_positional tbl args : forall raw j,
  (2 <= j)%nat ->
  (forall n a, nth_error raw n = Some a -> a <> "") ->
  (j - 2 + length raw <= length args)%nat ->
  bind_loop py_upper tbl [] args j raw = inr (firstn (length raw) (skipn (j - 2) args)).
Proof.
  induction raw as [|a raw IH]; intros j Hj Hne Hl; simpl; [reflexivity|].
  replace (j <? 2)%nat with false by (symmetry; apply Nat.ltb_ge; exact Hj).
  simpl in Hl.
  destruct (nth_error args (j - 2)) as [x|] eqn:Hx;
    [|apply nth_error_None in Hx; lia].
  assert (Hp : bind_param py_upper tbl [] args j a = inr x).
  { unfold bind_param. destruct a as [|c a'].
    - exfalso. exact (Hne O EmptyString eq_refl eq_refl).
    - simpl. replace (j - 2 <? length args)%nat with true
        by (symmetry; apply Nat.ltb_lt; lia).
      unfold py_index. rewrite Hx. reflexivity. }
  rewrite Hp, IH.
  - rewrite (skipn_cons_nth _ _ _ Hx).
    replace (S j - 2)%nat with (S (j - 2)) by lia. reflexivity.
  - lia.
  - intros n b Hn. exact (Hne (S n) b Hn).
  - lia.
Qed.

End Positional.

(** X1: the second notebook's [iknow_query] refines the first one: with one
    positional argument per formal parameter after the first two, no
    keyword but [outGlo], and no empty token in the formal spec, both
    dispatches behave the same (same result, same globals, same call). *)
Theorem iknow_query_refines_first_notebook E api method d args g st raw2 :
  method_spec E api method = inr raw2 ->
  (forall i a, (2 <= i)%nat -> nth_error raw2 i = Some a -> a <> "") ->
  length args = (length raw2 - 2)%nat ->
  iknow_query E api method d args [("outGlo", g)] st =
  FirstNotebook.iknow_query E api method d args g st.
Proof.
  intros Hm Hne Hl.
  assert (Hb : bind_loop (str_upper E) (ikpublic E) (kw_upper (str_upper E) (merge_kwargs [("outGlo", g)])) args 0 raw2
               = inr args).
  { change (kw_upper (str_upper E) (merge_kwargs [("outGlo", g)])) with (@nil (string * pyval)).
    rewrite bind_loop_skip, bind_loop_positional.
    - rewrite length_skipn. simpl. rewrite <- Hl, firstn_all. reflexivity.
    - lia.
    - intros n a Hn. rewrite nth_error_skipn in Hn. apply (Hne (2 + n)%nat); [lia|exact Hn].
    - rewrite length_skipn. lia. }
  unfold iknow_query, FirstNotebook.iknow_query, mbind, lift.
  destruct (result_schema E api method) as [e|raw]; [reflexivity|].
  destruct (map_res _ raw) as [e|types]; [reflexivity|].
  rewrite Hm, Hb. reflexivity.
Qed.

Lemma iknow_query_refines_first_notebook_witness :
  iknow_query Demo.server_two_params Demo.entity_api "GetTop" (PInt 1) [PInt 1; PInt 2]
    [("outGlo", PStr "^out")] Demo.st0 =
  FirstNotebook.iknow_query Demo.server_two_params Demo.entity_api "GetTop" (PInt 1)
    [PInt 1; PInt 2] (PStr "^out") Demo.st0.
Proof.
  apply (iknow_query_refines_first_notebook _ _ _ _ _ _ _ (py_split "," Demo.two_param_spec)).
  - vm_compute. reflexivity.
  - intros i a Hi Ha. destruct i as [|[|[|[|[|i]]]]]; try lia; vm_compute in Ha;
      try discriminate; injection Ha; intros; subst; discriminate.
  - vm_compute. reflexivity.
Defined.

(** ** Keyword arguments, continued *)

Lemma merge_fold_head : forall l vo rest,
  exists vo' rest', fold_left merge_step l (("outGlo", vo) :: rest) = ("outGlo", vo') :: rest'.
Proof.
  induction l as [|[k v] l IH]; intros vo rest; simpl; [eauto|].
  unfold merge_step at 2. simpl.
  destruct (String.eqb k "outGlo"); apply IH.
Qed.

Lemma kw_upper_skip_head {py_upper : string -> string} x rest :
  kw_upper py_upper (("outGlo", x) :: rest) = fold_left (kw_upper_step py_upper) rest [].
Proof. reflexivity. Qed.

Lemma merge_get_outglo : forall l d d',
  dict_get d "outGlo" = dict_get d' "outGlo" ->
  dict_get (fold_left merge_step l d) "outGlo" = dict_get (fold_left merge_step l d') "outGlo".
Proof.
  induction l as [|[k v] l IH]; intros d d' H; simpl; [exact H|].
  apply IH. unfold merge_step; simpl. rewrite !dict_get_set, H. reflexivity.
Qed.

Lemma merge_step_get_other d k v :
  k <> "outGlo" -> dict_get (merge_step d (k, v)) "outGlo" = dict_get d "outGlo".
Proof.
  intros Hk. unfold merge_step; simpl. rewrite dict_get_set.
  replace (String.eqb "outGlo" k) with false; [reflexivity|].
  symmetry. apply String.eqb_neq. intros H; apply Hk; symmetry; exact H.
Qed.

(** A dispatch sees its keyword arguments only through the output global
    and [kwupper]. *)
Lemma iknow_query_kwargs_ext E api method d args kw1 kw2 st :
  out_glo (merge_kwargs kw1) = out_glo (merge_kwargs kw2) ->
  kw_upper (str_upper E) (merge_kwargs kw1) = kw_upper (str_upper E) (merge_kwargs kw2) ->
  iknow_query E api method d args kw1 st = iknow_query E api method d args kw2 st.
Proof.
  intros Ho Hk. cbv delta [iknow_query] beta zeta. rewrite Ho, Hk. reflexivity.
Qed.

(** X2: keyword names are matched after [str.upper]: renaming a keyword
    argument (other than [outGlo]) to another spelling with the same
    upper-case form leaves the whole dispatch unchanged. *)
Theorem iknow_query_keyword_case_insensitive E api method d args pre k k' v post st :
  NoDup (map fst (pre ++ (k, v) :: post)) -> NoDup (map fst (pre ++ (k', v) :: post)) ->
  k <> "outGlo" -> k' <> "outGlo" -> str_upper E k = str_upper E k' ->
  iknow_query E api method d args (pre ++ (k, v) :: post) st =
  iknow_query E api method d args (pre ++ (k', v) :: post) st.
Proof.
  intros Hn1 Hn2 Hk Hk' Hu. apply iknow_query_kwargs_ext.
  - unfold out_glo, merge_kwargs. rewrite !fold_left_app. simpl.
    set (d0 := fold_left merge_step pre [("outGlo", PStr "^result")]).
    rewrite (merge_get_outglo post (merge_step d0 (k, v)) (merge_step d0 (k', v))); [reflexivity|].
    rewrite !merge_step_get_other by assumption. reflexivity.
  - destruct (merge_fold_shape _ (PStr "^result") [] Hn1
                ltac:(intros; simpl; tauto) ltac:(simpl; tauto)) as [vo1 H1].
    destruct (merge_fold_shape _ (PStr "^result") [] Hn2
                ltac:(intros; simpl; tauto) ltac:(simpl; tauto)) as [vo2 H2].
    unfold merge_kwargs. rewrite H1, H2, !kw_upper_skip_head.
    assert (Nk : forall x, x <> "outGlo" -> not_outglo (x, v) = true).
    { intros x Hx. unfold not_outglo; simpl.
      rewrite (proj2 (String.eqb_neq x "outGlo") Hx). reflexivity. }
    assert (Sk : forall x d0, x <> "outGlo" ->
              kw_upper_step (str_upper E) d0 (x, v) = dict_set d0 (str_upper E x) v).
    { intros x d0 Hx. unfold kw_upper_step; simpl.
      rewrite (proj2 (String.eqb_neq x "outGlo") Hx). reflexivity. }
    rewrite !app_nil_l, !filter_app. cbn [filter].
    rewrite (Nk k Hk), (Nk k' Hk'), !fold_left_app. cbn [fold_left].
    rewrite (Sk k _ Hk), (Sk k' _ Hk').
    rewrite Hu. reflexivity.
Qed.

Lemma iknow_query_keyword_case_insensitive_witness :
  iknow_query Demo.server Demo.entity_api "GetTop" (PInt 1) [] [("PageSize", PInt 5)] Demo.st0 =
  iknow_query Demo.server Demo.entity_api "GetTop" (PInt 1) [] [("PAGESIZE", PInt 5)] Demo.st0.
Proof.
  apply (iknow_query_keyword_case_insensitive _ _ _ _ _ [] "PageSize" "PAGESIZE" (PInt 5) []);
    first [ repeat constructor; simpl; tauto | discriminate | vm_compute; reflexivity ].
Defined.

(** X3: the keyword [outGlo] only names the output global: adding it never
    changes [kwupper] (so never the bound vector), the last [outGlo] given
    is the output global, and without it the output global is [^result]. *)
Theorem iknow_query_outglo_keyword (py_upper : string -> string) kwargs g :
  kw_upper py_upper (merge_kwargs (kwargs ++ [("outGlo", g)])) = kw_upper py_upper (merge_kwargs kwargs) /\
  out_glo (merge_kwargs (kwargs ++ [("outGlo", g)])) = g /\
  (~ In "outGlo" (map fst kwargs) -> out_glo (merge_kwargs kwargs) = PStr "^result").
Proof.
  destruct (merge_fold_head kwargs (PStr "^result") []) as [vo [rest H]].
  assert (Hs : merge_kwargs (kwargs ++ [("outGlo", g)]) = ("outGlo", g) :: rest).
  { unfold merge_kwargs. rewrite fold_left_app. fold (merge_kwargs kwargs).
    unfold merge_kwargs. rewrite H. reflexivity. }
  split; [|split].
  - rewrite Hs. unfold merge_kwargs. rewrite H, !kw_upper_skip_head. reflexivity.
  - rewrite Hs. reflexivity.
  - intros Hn. unfold out_glo, merge_kwargs.
    assert (Hg : forall l d, ~ In "outGlo" (map fst l) ->
              dict_get (fold_left merge_step l d) "outGlo" = dict_get d "outGlo").
    { induction l as [|[k v] l IH]; intros d' Hl; simpl; [reflexivity|].
      rewrite IH by (intros Hi; apply Hl; right; exact Hi).
      apply merge_step_get_other. intros Hk; apply Hl; left; exact Hk. }
    rewrite (Hg kwargs _ Hn). reflexivity.
Qed.

Lemma iknow_query_outglo_keyword_witness :
  out_glo (merge_kwargs [("PageSize", PInt 5)]) = PStr "^result".
Proof.
  apply (proj2 (proj2 (iknow_query_outglo_keyword ascii_upper [("PageSize", PInt 5)] PNone))).
  simpl. intros [H|[]]. discriminate.
Defined.

(** ** The binding loop, continued *)

Lemma substring_full s : substring 0 (String.length s) s = s.
Proof. induction s as [|a s IH]; simpl; [reflexivity|]. rewrite IH. reflexivity. Qed.

Lemma py_drop_1 a s : py_drop 1 (String a s) = s.
Proof.
  unfold py_drop. simpl. rewrite Nat.sub_0_r. apply substring_full.
Qed.

Lemma py_split_no_sep c : forall s x,
  In x (py_split c s) -> ~ In c (list_ascii_of_string x).
Proof.
  induction s as [|a s IH]; intros x Hx; simpl in Hx.
  - destruct Hx as [<-|[]]. simpl. tauto.
  - destruct (Ascii.eqb a c) eqn:E.
    + destruct Hx as [<-|Hx]; [simpl; tauto|exact (IH x Hx)].
    + destruct (py_split c s) as [|y ys] eqn:Hs.
      * destruct Hx as [<-|[]]. simpl. intros [H|[]]. subst.
        rewrite Ascii.eqb_refl in E. discriminate.
      * destruct Hx as [<-|Hx].
        -- simpl. intros [H|H].
           ++ subst. rewrite Ascii.eqb_refl in E. discriminate.
           ++ apply (IH y); [left; reflexivity|exact H].
        -- apply (IH x). right. exact Hx.
Qed.

Lemma py_split_hd_prefix c : forall s, String.prefix (hd "" (py_split c s)) s = true.
Proof.
  induction s as [|a s IH]; simpl; [reflexivity|].
  destruct (Ascii.eqb a c); simpl; [reflexivity|].
  destruct (py_split c s) as [|y ys]; simpl in *.
  - destruct (ascii_dec a a) as [_|n]; [exact IH|contradiction].
  - destruct (ascii_dec a a) as [_|n]; [exact IH|contradiction].
Qed.

Lemma py_split_app_sep c name rest :
  ~ In c (list_ascii_of_string name) ->
  py_split c (name ++ String c rest) = name :: py_split c rest.
Proof.
  induction name as [|a name IH]; intros Hn; simpl.
  - rewrite Ascii.eqb_refl. reflexivity.
  - destruct (Ascii.eqb a c) eqn:E.
    + apply Ascii.eqb_eq in E. subst. exfalso. apply Hn. left. reflexivity.
    + rewrite IH; [reflexivity|]. intros H. apply Hn. right. exact H.
Qed.

Lemma param_parts_plain c t :
  ~ is_marker c -> param_parts (String c t) = inr (py_split "=" (String c t)).
Proof.
  intros Hc. unfold param_parts.
  destruct (Ascii.eqb c "&") eqn:E1; [apply Ascii.eqb_eq in E1; exfalso; apply Hc; left; exact E1|].
  destruct (Ascii.eqb c "*") eqn:E2; [apply Ascii.eqb_eq in E2; exfalso; apply Hc; right; exact E2|].
  reflexivity.
Qed.

Lemma param_parts_marker c t :
  is_marker c -> param_parts (String c t) = inr (py_split "=" t).
Proof.
  intros [->| ->]; unfold param_parts; simpl; rewrite py_drop_1; reflexivity.
Qed.

Section Tokens.

Context {py_upper : string -> string}.

Lemma bind_param_parts tbl kw args i a b :
  param_parts a = param_parts b -> bind_param py_upper tbl kw args i a = bind_param py_upper tbl kw args i b.
Proof. intros H. unfold bind_param. rewrite H. reflexivity. Qed.

Lemma bind_loop_tokens tbl kw args : forall raw raw' j,
  Forall2 (fun a b => param_parts a = param_parts b) raw raw' ->
  bind_loop py_upper tbl kw args j raw = bind_loop py_upper tbl kw args j raw'.
Proof.
  intros raw raw' j H. revert j. induction H as [|a b raw raw' Hab H IH]; intros j; simpl;
    [reflexivity|].
  rewrite (bind_param_parts tbl kw args j a b Hab), IH. reflexivity.
Qed.

Lemma bind_loop_empty_token tbl kw args : forall raw j n,
  (2 <= j + n)%nat -> nth_error raw n = Some "" ->
  exists e, bind_loop py_upper tbl kw args j raw = inl e.
Proof.
  induction raw as [|a raw IH]; intros j n Hjn Hn; [destruct n; discriminate|].
  destruct n as [|n]; simpl in Hn.
  - injection Hn; intros; subst a. simpl.
    replace (j <? 2)%nat with false by (symmetry; apply Nat.ltb_ge; lia).
    exists IndexError. reflexivity.
  - destruct (IH (S j) n ltac:(lia) Hn) as [e He]. simpl.
    destruct (j <? 2)%nat; [exists e; exact He|].
    destruct (bind_param py_upper tbl kw args j a) as [e'|v]; [exists e'; reflexivity|].
    rewrite He. exists e. reflexivity.
Qed.

End Tokens.

(** X4: a parameter after the first two that no keyword names (other than
    [outGlo]) and whose slot is covered by the positional arguments is bound
    to the positional argument of that slot, whatever its default. *)
Theorem iknow_query_positional_binds (py_upper : string -> string) tbl kwargs args raw full i argument parts :
  (2 <= i)%nat -> nth_error raw i = Some argument -> param_parts argument = inr parts ->
  Forall (fun kv => fst kv = "outGlo" \/ py_upper (fst kv) <> param_name py_upper parts) kwargs ->
  (i - 2 < length args)%nat ->
  bind_loop py_upper tbl (kw_upper py_upper (merge_kwargs kwargs)) args 0 raw = inr full ->
  nth_error full (i - 2) = nth_error args (i - 2).
Proof.
  intros Hi Ha Hp HF Hl Hb.
  pose proof (kw_upper_absent kwargs (param_name py_upper parts) HF) as Hk.
  destruct (bind_loop_param _ _ _ _ _ _ _ Hb Hi Ha) as [w [Hw Hn]].
  unfold bind_param in Hw. rewrite Hp, Hk in Hw.
  replace (i - 2 <? length args)%nat with true in Hw by (symmetry; apply Nat.ltb_lt; exact Hl).
  unfold py_index in Hw. destruct (nth_error args (i - 2)) as [x|] eqn:Hx.
  - injection Hw; intros; subst. exact Hn.
  - apply nth_error_None in Hx. lia.
Qed.

Lemma iknow_query_positional_binds_witness :
  nth_error [PStr "1"; PInt 7; PStr ""; PStr "3"] (3 - 2) = nth_error [PStr "1"; PInt 7] (3 - 2).
Proof.
  apply (iknow_query_positional_binds ascii_upper Demo.ikpublic_lines [] [PStr "1"; PInt 7]
           (py_split "," Demo.get_top_spec) [PStr "1"; PInt 7; PStr ""; PStr "3"] 3
           "pagesize:%Integer=10" ["pagesize:%Integer"; "10"]);
    first [ vm_compute; reflexivity | simpl; lia | apply Forall_nil ].
Defined.

(** X5: a parameter after the first two whose formal-spec token has no
    ['='] (no declared default), passed neither by keyword nor by position,
    is bound to [None]: no error is raised. *)
Theorem iknow_query_no_default_binds_none (py_upper : string -> string) tbl kwargs args raw i argument :
  (2 <= i)%nat -> nth_error raw i = Some argument -> argument <> "" ->
  ~ In "="%char (list_ascii_of_string argument) ->
  (forall parts, param_parts argument = inr parts ->
     Forall (fun kv => fst kv = "outGlo" \/ py_upper (fst kv) <> param_name py_upper parts) kwargs) ->
  (length args <= i - 2)%nat ->
  bind_param py_upper tbl (kw_upper py_upper (merge_kwargs kwargs)) args i argument = inr PNone /\
  (forall full, bind_loop py_upper tbl (kw_upper py_upper (merge_kwargs kwargs)) args 0 raw = inr full ->
     nth_error full (i - 2) = Some PNone).
Proof.
  intros Hi Ha Hne Heq HF Hl.
  assert (Hbp : bind_param py_upper tbl (kw_upper py_upper (merge_kwargs kwargs)) args i argument = inr PNone).
  { destruct argument as [|c t]; [contradiction|].
    assert (Hp : exists s, param_parts (String c t) = inr [s]).
    { destruct (Ascii.eqb c "&" || Ascii.eqb c "*") eqn:Em.
      - exists t. rewrite param_parts_marker.
        + rewrite py_split_absent; [reflexivity|]. intros H. apply Heq. right. exact H.
        + apply orb_true_iff in Em as [E|E]; apply Ascii.eqb_eq in E; [left|right]; exact E.
      - exists (String c t). unfold param_parts. rewrite Em.
        rewrite py_split_absent; [reflexivity|exact Heq]. }
    destruct Hp as [s Hp].
    pose proof (kw_upper_absent kwargs _ (HF _ Hp)) as Hk.
    unfold bind_param. rewrite Hp, Hk.
    replace (i - 2 <? length args)%nat with false by (symmetry; apply Nat.ltb_ge; exact Hl).
    reflexivity. }
  split; [exact Hbp|].
  intros full Hb.
  destruct (bind_loop_param _ _ _ _ _ _ _ Hb Hi Ha) as [w [Hw Hn]].
  rewrite Hbp in Hw. injection Hw; intros; subst. exact Hn.
Qed.

Lemma iknow_query_no_default_binds_none_witness :
  bind_param ascii_upper [] (kw_upper ascii_upper (merge_kwargs [])) [PStr "1"] 3 "size:%Integer" = inr PNone /\
  (forall full, bind_loop ascii_upper [] (kw_upper ascii_upper (merge_kwargs [])) [PStr "1"] 0
                  ["&result"; "domainid:%Integer"; "page:%Integer=1"; "size:%Integer"] = inr full ->
     nth_error full (3 - 2) = Some PNone).
Proof.
  apply (iknow_query_no_default_binds_none ascii_upper [] [] [PStr "1"]
           ["&result"; "domainid:%Integer"; "page:%Integer=1"; "size:%Integer"] 3 "size:%Integer");
    first [ vm_compute; reflexivity | simpl; lia | discriminate
          | intros parts Hp; apply Forall_nil
          | simpl; intros H; repeat destruct H as [H|H]; first [discriminate | contradiction] ].
Defined.

(** X6: a literal default is cut at its first ['=']: for a formal-spec
    token [name=rest] (no marker, no ['='] in [name]) not passed by the
    caller, if the text of [rest] before its first ['='] is neither the
    sentinel nor a [$$$] token, that text is bound as a string: a prefix
    of [rest] with no ['='] in it. *)
Theorem iknow_query_literal_default_cut (py_upper : string -> string) tbl kwargs args raw full i name rest dflt :
  (2 <= i)%nat -> nth_error raw i = Some (name ++ "=" ++ rest)%string ->
  name <> "" -> (forall c t, name = String c t -> ~ is_marker c) ->
  ~ In "="%char (list_ascii_of_string name) ->
  Forall (fun kv => fst kv = "outGlo" \/ py_upper (fst kv) <> param_name py_upper [name]) kwargs ->
  (length args <= i - 2)%nat ->
  hd "" (py_split "=" rest) = dflt -> dflt <> empty_sentinel -> py_prefix3 dflt <> dollar3 ->
  bind_loop py_upper tbl (kw_upper py_upper (merge_kwargs kwargs)) args 0 raw = inr full ->
  nth_error full (i - 2) = Some (PStr dflt) /\
  String.prefix dflt rest = true /\ ~ In "="%char (list_ascii_of_string dflt).
Proof.
  intros Hi Ha Hne Hm Heq HF Hl Hd Hs H3 Hb.
  destruct name as [|c t]; [contradiction|].
  assert (Hp : param_parts (String c t ++ "=" ++ rest)%string = inr (String c t :: py_split "=" rest)).
  { change (String c t ++ "=" ++ rest)%string with (String c (t ++ String "=" rest)).
    rewrite (param_parts_plain c (t ++ String "=" rest) (Hm c t eq_refl)).
    change (String c (t ++ String "=" rest)) with (String c t ++ String "=" rest)%string.
    rewrite py_split_app_sep by exact Heq. reflexivity. }
  assert (Hk : dict_get (kw_upper py_upper (merge_kwargs kwargs)) (param_name py_upper (String c t :: py_split "=" rest))
               = None) by exact (kw_upper_absent kwargs _ HF).
  destruct (py_split "=" rest) as [|d0 more] eqn:Hsp.
  { destruct rest; simpl in Hsp; [discriminate|].
    destruct (Ascii.eqb a "="); [discriminate|]. destruct (py_split "=" rest); discriminate. }
  simpl in Hd. subst d0.
  destruct (bind_loop_param _ _ _ _ _ _ _ Hb Hi Ha) as [w [Hw Hn]].
  rewrite (bind_param_default tbl _ args i _ _ dflt Hp Hk Hl eq_refl) in Hw.
  destruct (String.eqb dflt empty_sentinel) eqn:E1; [apply String.eqb_eq in E1; contradiction|].
  destruct (String.eqb (py_prefix3 dflt) dollar3) eqn:E2; [apply String.eqb_eq in E2; contradiction|].
  injection Hw; intros; subst w.
  split; [exact Hn|split].
  - pose proof (py_split_hd_prefix "=" rest) as Hpre. rewrite Hsp in Hpre. exact Hpre.
  - apply (py_split_no_sep "=" rest). rewrite Hsp. left. reflexivity.
Qed.

Lemma iknow_query_literal_default_cut_witness :
  nth_error [PStr "1"; PStr "a"] (3 - 2) = Some (PStr "a") /\
  String.prefix "a" "a=b" = true /\ ~ In "="%char (list_ascii_of_string "a").
Proof.
  apply (iknow_query_literal_default_cut ascii_upper [] [] [PStr "1"]
           ["&result"; "domainid:%Integer"; "page:%Integer=1"; "x:%String=a=b"]
           [PStr "1"; PStr "a"] 3 "x:%String" "a=b" "a");
    first [ vm_compute; reflexivity | simpl; lia | discriminate | apply Forall_nil
          | intros c t Ht; injection Ht; intros; subst; intros [H|H]; discriminate
          | simpl; intros H; repeat destruct H as [H|H]; first [discriminate | contradiction] ].
Defined.

(** X7: the [&] (by reference) and [*] (multidimensional) markers of a
    formal-spec token are dropped before it is read: marking a token
    (non-empty, not already starting with a marker) leaves the bound vector
    unchanged. *)
Theorem iknow_query_marker_ignored (py_upper : string -> string) tbl kw args l1 l2 c tok :
  is_marker c -> tok <> "" -> (forall c' t, tok = String c' t -> ~ is_marker c') ->
  bind_loop py_upper tbl kw args 0 (l1 ++ String c tok :: l2) = bind_loop py_upper tbl kw args 0 (l1 ++ tok :: l2).
Proof.
  intros Hc Hne Ht. apply bind_loop_tokens.
  apply Forall2_app; [|constructor].
  - induction l1 as [|a l1 IH]; constructor; [reflexivity|exact IH].
  - rewrite param_parts_marker by exact Hc.
    destruct tok as [|c' t]; [contradiction|].
    rewrite param_parts_plain by exact (Ht c' t eq_refl). reflexivity.
  - induction l2 as [|a l2 IH]; constructor; [reflexivity|exact IH].
Qed.

Lemma iknow_query_marker_ignored_witness :
  bind_loop ascii_upper [] [] [PInt 1] 0 ["result"; "domainid:%Integer"; "&page:%Integer=1"] =
  bind_loop ascii_upper [] [] [PInt 1] 0 ["result"; "domainid:%Integer"; "page:%Integer=1"].
Proof.
  apply (iknow_query_marker_ignored ascii_upper [] [] [PInt 1] ["result"; "domainid:%Integer"] []
           "&"%char "page:%Integer=1").
  - left. reflexivity.
  - discriminate.
  - intros c' t Ht. injection Ht; intros; subst. intros [H|H]; discriminate.
Defined.

(** X8: an empty token in the formal spec after the first two (for
    instance from a trailing comma) makes every dispatch of that method
    raise before the method is called: the state is unchanged. *)
Theorem iknow_query_empty_formal_token_raises E api method d args kwargs st raw2 i :
  method_spec E api method = inr raw2 -> (2 <= i)%nat -> nth_error raw2 i = Some "" ->
  exists e, iknow_query E api method d args kwargs st = (inl e, st).
Proof.
  intros Hm Hi Hn.
  destruct (iknow_query E api method d args kwargs st) as [r st'] eqn:Hq.
  destruct (iknow_query_cases _ _ _ _ _ _ _ _ _ Hq) as [[-> [e ->]]|H].
  - exists e. reflexivity.
  - destruct H as [raw [types [raw2' [full [o [g' [_ [_ [Hm' [Hb _]]]]]]]]]].
    rewrite Hm in Hm'. injection Hm'; intros; subst raw2'.
    destruct (bind_loop_empty_token (py_upper := str_upper E) (ikpublic E) (kw_upper (str_upper E) (merge_kwargs kwargs)) args raw2 0 i
                ltac:(lia) Hn) as [e He].
    rewrite He in Hb. discriminate.
Qed.

Lemma iknow_query_empty_formal_token_raises_witness :
  exists e, iknow_query
    (Demo.mk_server Demo.get_top_rt (Demo.get_top_spec ++ ",") Demo.ikpublic_lines
       Demo.get_top_body Demo.irislist_get)
    Demo.entity_api "GetTop" (PInt 1) [] [] Demo.st0 = (inl e, Demo.st0).
Proof.
  apply (iknow_query_empty_formal_token_raises _ _ _ _ _ _ _
           (py_split "," (Demo.get_top_spec ++ ",")) 6);
    first [ vm_compute; reflexivity | lia ].
Defined.

(** ** [iknow_macro], continued *)

Lemma py_index_some {A} (l : list A) i v : nth_error l i = Some v -> py_index l i = inr v.
Proof. intros H. unfold py_index. rewrite H. reflexivity. Qed.

Lemma macro_guard_true line m :
  nth_error (py_split " " line) 1 = Some m ->
  ((1 <? length (py_split " " line))%nat && String.eqb (nth 1 (py_split " " line) "") m) = true.
Proof.
  intros H. apply andb_true_iff. split.
  - apply Nat.ltb_lt. apply nth_error_Some. rewrite H. discriminate.
  - rewrite (nth_error_nth _ _ "" H). apply String.eqb_refl.
Qed.

Lemma macro_guard_false line m :
  ((1 <? length (py_split " " line))%nat && String.eqb (nth 1 (py_split " " line) "") m) = false
  <-> nth_error (py_split " " line) 1 <> Some m.
Proof.
  split.
  - intros H Hn. rewrite macro_guard_true in H by exact Hn. discriminate.
  - intros Hn. apply Bool.not_true_iff_false. intros H.
    apply andb_true_iff in H as [H1 H2]. apply Nat.ltb_lt in H1. apply String.eqb_eq in H2.
    apply Hn. rewrite <- H2. apply nth_error_nth'. exact H1.
Qed.

(** X9: [iknow_macro] returns the third space-separated field of the first
    line of the include file whose second field is the macro name (the
    name without its [$$$] prefix); later lines are not read. *)
Theorem iknow_macro_first_match pre line post macro v :
  (forall l, In l pre -> nth_error (py_split " " l) 1 <> Some (macro_name macro)) ->
  nth_error (py_split " " line) 1 = Some (macro_name macro) ->
  nth_error (py_split " " line) 2 = Some v ->
  iknow_macro (pre ++ line :: post) macro = inr (PStr v).
Proof.
  intros Hpre H1 H2. unfold iknow_macro.
  induction pre as [|l pre IH]; simpl.
  - rewrite (macro_guard_true _ _ H1), (py_index_some _ _ _ H2). reflexivity.
  - replace ((1 <? length (py_split " " l))%nat && String.eqb (nth 1 (py_split " " l) "") _)
      with false by (symmetry; apply macro_guard_false; apply Hpre; left; reflexivity).
    apply IH. intros l' Hl'. apply Hpre. right. exact Hl'.
Qed.

Lemma iknow_macro_first_match_witness :
  iknow_macro (["#define SORTBYFREQUENCY 0"] ++ "#define FILTERONLY 3" :: ["#define FILTERONLY 4"])
    "$$$FILTERONLY" = inr (PStr "3").
Proof.
  apply iknow_macro_first_match.
  - intros l [<-|[]]. vm_compute. discriminate.
  - vm_compute. reflexivity.
  - vm_compute. reflexivity.
Defined.

(** X10: [iknow_macro] returns [None] exactly when no line of the include
    file has the macro name as its second space-separated field. *)
Theorem iknow_macro_none_iff tbl macro :
  iknow_macro tbl macro = inr PNone <->
  Forall (fun l => nth_error (py_split " " l) 1 <> Some (macro_name macro)) tbl.
Proof.
  unfold iknow_macro. generalize (macro_name macro) as m.
  induction tbl as [|l tbl IH]; intros m; simpl.
  - split; intros; [constructor|reflexivity].
  - destruct ((1 <? length (py_split " " l))%nat && String.eqb (nth 1 (py_split " " l) "") m)
      eqn:G.
    + split.
      * destruct (py_index (py_split " " l) 2); discriminate.
      * intros H. inversion H as [|? ? Hl _]; subst.
        apply macro_guard_false in Hl. rewrite Hl in G. discriminate.
    + rewrite IH. split.
      * intros H. constructor; [apply macro_guard_false; exact G|exact H].
      * intros H. inversion H; assumption.
Qed.

(** X11: a value returned by [iknow_macro] is the third field of a line
    whose second field is the macro name, so it never contains a space. *)
Theorem iknow_macro_value_field tbl macro v :
  iknow_macro tbl macro = inr (PStr v) ->
  ~ In " "%char (list_ascii_of_string v) /\
  exists line, In line tbl /\ nth_error (py_split " " line) 1 = Some (macro_name macro) /\
               nth_error (py_split " " line) 2 = Some v.
Proof.
  unfold iknow_macro. generalize (macro_name macro) as m.
  induction tbl as [|l tbl IH]; intros m H; simpl in H; [discriminate|].
  destruct ((1 <? length (py_split " " l))%nat && String.eqb (nth 1 (py_split " " l) "") m)
    eqn:G.
  - unfold py_index in H. destruct (nth_error (py_split " " l) 2) as [x|] eqn:Hx;
      [|discriminate].
    injection H; intros; subst x. split.
    + apply (py_split_no_sep " " l). apply nth_error_In with 2. exact Hx.
    + exists l. split; [left; reflexivity|split; [|exact Hx]].
      apply andb_true_iff in G as [G1 G2]. apply Nat.ltb_lt in G1. apply String.eqb_eq in G2.
      rewrite <- G2. apply nth_error_nth'. exact G1.
  - destruct (IH m H) as [Hs [line [Hin Hl]]]. split; [exact Hs|].
    exists line. split; [right; exact Hin|exact Hl].
Qed.

Lemma iknow_macro_value_field_witness :
  ~ In " "%char (list_ascii_of_string "3") /\
  exists line, In line Demo.ikpublic_lines /\
    nth_error (py_split " " line) 1 = Some (macro_name "$$$FILTERONLY") /\
    nth_error (py_split " " line) 2 = Some "3".
Proof.
  apply (iknow_macro_value_field Demo.ikpublic_lines "$$$FILTERONLY" "3").
  vm_compute. reflexivity.
Defined.

(** X12: the [$$$] prefix of a macro name is optional: [$$$NAME] and
    [NAME] resolve alike in every include file (when [NAME] does not
    itself start with [$$$], which would be stripped only once). *)
Theorem iknow_macro_prefix_optional tbl m :
  py_prefix3 m <> dollar3 -> iknow_macro tbl (dollar3 ++ m) = iknow_macro tbl m.
Proof.
  intros Hm. unfold iknow_macro, macro_name.
  replace (String.eqb (py_prefix3 m) dollar3) with false
    by (symmetry; apply String.eqb_neq; exact Hm).
  replace (py_prefix3 (dollar3 ++ m)) with dollar3 by (destruct m; reflexivity).
  rewrite String.eqb_refl.
  replace (py_drop 3 (dollar3 ++ m)) with m; [reflexivity|].
  unfold py_drop. simpl. rewrite Nat.sub_0_r. symmetry. apply substring_full.
Qed.

Lemma iknow_macro_prefix_optional_witness :
  iknow_macro Demo.ikpublic_lines (dollar3 ++ "FILTERONLY") =
  iknow_macro Demo.ikpublic_lines "FILTERONLY".
Proof. apply iknow_macro_prefix_optional. vm_compute. discriminate. Defined.

Lemma iknow_macro_none_iff_witness :
  iknow_macro ["#define SORTBYFREQUENCY 0"] "$$$FILTERONLY" = inr PNone.
Proof.
  apply (proj2 (iknow_macro_none_iff ["#define SORTBYFREQUENCY 0"] "$$$FILTERONLY")).
  constructor; [vm_compute; discriminate|constructor].
Defined.

(** ** Rows, continued *)

(** X13: in a row built normally, a column holds [raw_row.get(i+1)] for
    the last index [i] at which the schema names it: with distinct column
    names, column [i] holds field [i+1] of the payload. *)
Theorem build_row_column_value get raw_row cols row i col :
  build_row get raw_row cols 0 [] = inr row ->
  nth_error cols i = Some col -> ~ In col (skipn (S i) cols) ->
  exists v, get raw_row (i + 1)%nat = inr v /\ dict_get row col = Some v.
Proof. intros H Hi Hn. exact (build_row_values_from get raw_row cols 0 [] row i col H Hi Hn). Qed.

Lemma build_row_column_value_witness :
  exists v, Demo.irislist_get [PInt 1; PStr "fish"; PInt 2] (1 + 1)%nat = inr v /\
    dict_get [("a", PInt 1); ("b", PStr "fish")] "b" = Some v.
Proof.
  apply (build_row_column_value Demo.irislist_get [PInt 1; PStr "fish"; PInt 2] ["a"; "b"]
           [("a", PInt 1); ("b", PStr "fish")] 1 "b").
  - vm_compute. reflexivity.
  - reflexivity.
  - simpl. tauto.
Defined.

(** ** Draining the output global, continued *)

Section NextSub.

Variable k : Z.

Lemma least_above_fold : forall l acc seen,
  least_above k acc seen -> least_above k (fold_left (next_sub_step k) l acc) (seen ++ map fst l).
Proof.
  induction l as [|[z p] l IH]; intros acc seen H; simpl; [rewrite app_nil_r; exact H|].
  replace (seen ++ z :: map fst l) with ((seen ++ [z]) ++ map fst l)
    by (rewrite <- app_assoc; reflexivity).
  apply IH. unfold next_sub_step; simpl.
  destruct (k <? z)%Z eqn:Ek; [apply Z.ltb_lt in Ek|apply Z.ltb_ge in Ek].
  - destruct acc as [m|]; simpl in *.
    + destruct H as [Hm [Hk Hl]]. split; [|split].
      * destruct (Z.min_spec m z) as [[_ ->]|[_ ->]];
          apply in_or_app; [left; exact Hm|right; left; reflexivity].
      * apply Z.min_glb_lt; assumption.
      * intros y Hy Hky. apply in_app_or in Hy as [Hy|[<-|[]]].
        -- specialize (Hl y Hy Hky). lia.
        -- lia.
    + split; [apply in_or_app; right; left; reflexivity|split; [exact Ek|]].
      intros y Hy Hky. apply in_app_or in Hy as [Hy|[<-|[]]].
      * specialize (H y Hy). lia.
      * lia.
  - destruct acc as [m|]; simpl in *.
    + destruct H as [Hm [Hk Hl]]. split; [apply in_or_app; left; exact Hm|split; [exact Hk|]].
      intros y Hy Hky. apply in_app_or in Hy as [Hy|[<-|[]]]; [exact (Hl y Hy Hky)|lia].
    + intros y Hy. apply in_app_or in Hy as [Hy|[<-|[]]]; [exact (H y Hy)|exact Ek].
Qed.

Lemma next_sub_least nodes : least_above k (next_sub nodes k) (map fst nodes).
Proof.
  exact (least_above_fold nodes None [] (fun z (H : In z []) => match H with end)).
Qed.

End NextSub.

Lemma nodup_above_shrinks (keys : list Z) k m :
  In m keys -> (k < m)%Z ->
  (S (length (nodup Z.eq_dec (filter (fun z => m <? z)%Z keys))) <=
   length (nodup Z.eq_dec (filter (fun z => k <? z)%Z keys)))%nat.
Proof.
  intros Hm Hkm.
  change (S (length (nodup Z.eq_dec (filter (fun z => m <? z)%Z keys))))
    with (length (m :: nodup Z.eq_dec (filter (fun z => m <? z)%Z keys))).
  apply NoDup_incl_length.
  - constructor; [|apply NoDup_nodup].
    rewrite nodup_In, filter_In. intros [_ H]. apply Z.ltb_lt in H. lia.
  - intros z [<-|Hz]; rewrite nodup_In, filter_In.
    + split; [exact Hm|apply Z.ltb_lt; exact Hkm].
    + rewrite nodup_In, filter_In in Hz. destruct Hz as [Hz Hl].
      apply Z.ltb_lt in Hl. split; [exact Hz|apply Z.ltb_lt; lia].
Qed.

Lemma drain_loop_order get cols nodes : forall fuel k rows,
  (length (nodup Z.eq_dec (filter (fun z => k <? z)%Z (map fst nodes))) < fuel)%nat ->
  drain_loop get cols nodes fuel k = inr rows ->
  exists ks, Sorted Z.lt ks /\
    (forall z, In z ks <-> (k < z)%Z /\ In z (map fst nodes)) /\
    Forall2 (fun z row => exists p, get_node nodes z = inr p /\ build_row get p cols 0 [] = inr row)
      ks rows.
Proof.
  induction fuel as [|fuel IH]; intros k rows Hf H; [lia|].
  simpl in H. pose proof (next_sub_least k nodes) as Hl.
  destruct (next_sub nodes k) as [m|] eqn:Hn.
  - destruct Hl as [Hm [Hkm Hmin]].
    destruct (get_node nodes m) as [e|p] eqn:Hg; [discriminate|].
    destruct (build_row get p cols 0 []) as [e|row] eqn:Hb; [discriminate|].
    destruct (drain_loop get cols nodes fuel m) as [e|rows'] eqn:Hd; [discriminate|].
    injection H; intros; subst rows.
    pose proof (nodup_above_shrinks (map fst nodes) k m Hm Hkm) as Hs.
    destruct (IH m rows' ltac:(lia) Hd) as [ks [Hso [Hin Hf2]]].
    exists (m :: ks). split; [|split].
    + constructor; [exact Hso|]. destruct ks as [|z ks]; constructor.
      apply (proj1 (Hin z)). left. reflexivity.
    + intros z. simpl. rewrite Hin. split.
      * intros [<-|[Hz Hz']]; [split; assumption|split; [lia|exact Hz']].
      * intros [Hz Hz']. destruct (Z.eq_dec m z) as [E|E]; [left; exact E|right].
        specialize (Hmin z Hz' Hz). split; [lia|exact Hz'].
    + constructor; [exists p; split; assumption|exact Hf2].
  - injection H; intros; subst rows. exists []. split; [constructor|split; [|constructor]].
    intros z. simpl. split; [intros []|]. intros [Hz Hz']. specialize (Hl z Hz'). lia.
Qed.

(** X14: a drain that completes reads the output global's nodes in
    increasing subscript order, each positive subscript exactly once
    (subscript [0] and below are never read): row [n] is built from the
    payload of the [n]-th smallest positive subscript. *)
Theorem drain_reads_nodes_in_order E cols outGlo st rows :
  fst (drain E cols outGlo st) = inr rows ->
  exists ks, Sorted Z.lt ks /\
    (forall z, In z ks <-> (0 < z)%Z /\ In z (map fst (glo_get (st_globals st) outGlo))) /\
    Forall2 (fun z row => exists p, get_node (glo_get (st_globals st) outGlo) z = inr p /\
                                    build_row (list_get E) p cols 0 [] = inr row) ks rows.
Proof.
  unfold drain; cbn [fst]. intros H.
  apply (drain_loop_order _ _ _ (S (length (glo_get (st_globals st) outGlo))) 0%Z); [|exact H].
  apply Nat.lt_succ_r.
  rewrite <- (length_map fst (glo_get (st_globals st) outGlo)).
  apply NoDup_incl_length; [apply NoDup_nodup|].
  intros z Hz. rewrite nodup_In, filter_In in Hz. exact (proj1 Hz).
Qed.

Lemma drain_reads_nodes_in_order_witness :
  exists ks, Sorted Z.lt ks /\
    (forall z, In z ks <-> (0 < z)%Z /\ In z [2%Z; 1%Z; 0%Z]) /\
    Forall2 (fun z row => exists p,
        get_node [(2%Z, [PStr "x"; PStr "y"]); (1%Z, [PStr "u"; PStr "v"]);
                  (0%Z, [PStr "z"; PStr "z"])] z = inr p /\
        build_row Demo.irislist_get p ["a"; "b"] 0 [] = inr row) ks
      [[("a", PStr "u"); ("b", PStr "v")]; [("a", PStr "x"); ("b", PStr "y")]].
Proof.
  apply (drain_reads_nodes_in_order Demo.server ["a"; "b"] (PStr "^result")
           (mkState [(PStr "^result", [(2%Z, [PStr "x"; PStr "y"]); (1%Z, [PStr "u"; PStr "v"]);
                                      (0%Z, [PStr "z"; PStr "z"])])] [])).
  vm_compute. reflexivity.
Defined.

(** ** A normal return *)

Lemma pyval_eqb_eq a b : pyval_eqb a b = true <-> a = b.
Proof.
  destruct a, b; simpl; split; intros H; try discriminate.
  - apply String.eqb_eq in H. subst. reflexivity.
  - injection H; intros; subst. apply String.eqb_refl.
  - apply Z.eqb_eq in H. subst. reflexivity.
  - injection H; intros; subst. apply Z.eqb_refl.
  - reflexivity.
  - reflexivity.
Qed.

Lemma glo_get_kill_other g n name :
  pyval_eqb n name = false -> glo_get (glo_kill name g) n = glo_get g n.
Proof.
  intros Hn. induction g as [|[n' nodes] g IH]; simpl; [reflexivity|].
  destruct (pyval_eqb n' name) eqn:E; simpl.
  - apply pyval_eqb_eq in E. subst n'.
    replace (pyval_eqb name n) with false; [exact IH|].
    symmetry. apply Bool.not_true_iff_false. intros H. apply pyval_eqb_eq in H.
    rewrite H, (proj2 (pyval_eqb_eq n n) eq_refl) in Hn. discriminate.
  - rewrite IH. reflexivity.
Qed.

(** X15: on a normal return the method was called exactly once, with the
    output global, the domain id and the bound vector; the call is the one
    entry added to the call log, the rows are those drained from what it
    left in the output global, and every other global is left as the call
    left it. *)
Theorem iknow_query_normal_return E api method d args kwargs st rows st' :
  iknow_query E api method d args kwargs st = (inr rows, st') ->
  let outGlo := out_glo (merge_kwargs kwargs) in
  exists raw raw2 full g',
    result_schema E api method = inr raw /\
    method_spec E api method = inr raw2 /\
    bind_loop (str_upper E) (ikpublic E) (kw_upper (str_upper E) (merge_kwargs kwargs)) args 0 raw2 = inr full /\
    remote E api method (outGlo :: d :: full) (st_globals st) = (inr tt, g') /\
    st_calls st' = st_calls st ++ [(api, method, outGlo :: d :: full)] /\
    fst (drain E (return_cols_of raw) outGlo (mkState g' [])) = inr rows /\
    forall n, pyval_eqb n outGlo = false -> glo_get (st_globals st') n = glo_get g' n.
Proof.
  intros H. apply iknow_query_cases in H. cbv zeta in H |- *.
  destruct H as [[_ [e He]]|[raw [types [raw2 [full [o [g' [Hs [_ [Hm [Hb [Hr Ho]]]]]]]]]]]];
    [discriminate|].
  destruct o as [e|[]]; [destruct Ho as [Ho _]; discriminate|].
  destruct (drain_loop _ _ _ _ _) as [e|rows'] eqn:Hd; destruct Ho as [Ho ->]; [discriminate|].
  injection Ho; intros; subst rows'.
  exists raw, raw2, full, g'. repeat (split; [assumption|]). split; [reflexivity|]. split.
  - unfold drain. simpl. exact Hd.
  - intros n Hn. simpl. apply glo_get_kill_other. exact Hn.
Qed.

Lemma iknow_query_normal_return_witness :
  exists raw raw2 full g',
    result_schema Demo.server Demo.entity_api "GetTop" = inr raw /\
    method_spec Demo.server Demo.entity_api "GetTop" = inr raw2 /\
    bind_loop ascii_upper (ikpublic Demo.server) (kw_upper ascii_upper (merge_kwargs [])) [] 0 raw2 = inr full /\
    remote Demo.server Demo.entity_api "GetTop" (out_glo (merge_kwargs []) :: PInt 1 :: full)
      (st_globals Demo.st0) = (inr tt, g') /\
    st_calls (snd (iknow_query Demo.server Demo.entity_api "GetTop" (PInt 1) [] [] Demo.st0)) =
      st_calls Demo.st0 ++ [(Demo.entity_api, "GetTop", out_glo (merge_kwargs []) :: PInt 1 :: full)] /\
    fst (drain Demo.server (return_cols_of raw) (out_glo (merge_kwargs [])) (mkState g' [])) =
      fst (iknow_query Demo.server Demo.entity_api "GetTop" (PInt 1) [] [] Demo.st0) /\
    forall n, pyval_eqb n (out_glo (merge_kwargs [])) = false ->
      glo_get (st_globals (snd (iknow_query Demo.server Demo.entity_api "GetTop" (PInt 1) [] []
                                  Demo.st0))) n = glo_get g' n.
Proof.
  apply (iknow_query_normal_return Demo.server Demo.entity_api "GetTop" (PInt 1) [] []
           Demo.st0 Demo.get_top_rows).
  vm_compute. reflexivity.
Defined.
